(** * The streaming pipeline engine (pkg/stream): model and verification

    A shallow embedding of [pkg/stream/pipeline.go] and of the sources of
    [pkg/stream/source], with the goroutines of a run as an interleaving
    step function over buffered channels.

    - a Go [chan X] with a buffer is a record: queued values, capacity,
      closed flag;
    - every goroutine (source producer, one forwarder per operator, the
      sink consumer, the [wg.Wait] goroutine, [Run] itself) is a small
      control state; one [Action] is one atomic move of one goroutine, or
      a move of the environment (cancellation of the context, a tick, the
      outcome of an HTTP poll);
    - a Go [select] with several ready cases may take any of them: each
      case is an action of its own, enabled exactly when the case is ready;
    - the calls [Run] makes on the [Source] and [Sink] interfaces are
      recorded, in order, in the [calls] field of the state. *)

From stdpp Require Import base option list strings gmap pretty.
From Stdlib Require Import ZArith Lia.

Local Open Scope Z_scope.

(** ** Errors *)

(** Go [error] values: [errors.New]/[fmt.Errorf] without [%w] give an
    [errorString]; [fmt.Errorf("prefix: %w", e)] wraps [e]. *)
Inductive error : Type :=
| errorString (s : string)
| wrapError (prefix : string) (e : error).

(** ** Channels *)

Record chan (A : Type) : Type := mkChan {
  buf : list A;      (* queued values, oldest first *)
  cap : nat;         (* capacity given to make() *)
  closed : bool
}.
Arguments mkChan {A}.
Arguments buf {A}.
Arguments cap {A}.
Arguments closed {A}.

(** [make(chan A, n)] *)
Definition make_chan (A : Type) (n : nat) : chan A :=
  mkChan [] n false.

(** a send can proceed when the buffer has room *)
Definition has_room {A} (c : chan A) : bool :=
  bool_decide (length (buf c) < cap c)%nat.

Definition chan_push {A} (x : A) (c : chan A) : chan A :=
  mkChan (buf c ++ [x]) (cap c) (closed c).

Definition chan_pop {A} (c : chan A) : chan A :=
  mkChan (tail (buf c)) (cap c) (closed c).

Definition chan_close {A} (c : chan A) : chan A :=
  mkChan (buf c) (cap c) true.

Section Stream.
Context {T : Type}.

(** ** Messages (pipeline.go, [Message]) *)

(** [Metadata] is a Go map: [None] is the nil map, [Some m] an allocated
    one (possibly empty). *)
Record Message : Type := mkMessage {
  Key : string;
  Value : T;
  Timestamp : Z;
  Metadata : option (gmap string string)
}.

(** ** Operators (pipeline.go, [MapOperator], [FilterOperator]) *)

Inductive Operator : Type :=
| MapOperator (fn : T → T)
| FilterOperator (fn : T → bool).

(** [msg.Value = m.fn(msg.Value)]: assignment to one field of the local
    copy of the message. *)
Definition set_Value (v : T) (m : Message) : Message :=
  mkMessage (Key m) v (Timestamp m) (Metadata m).

(** What a forwarder does with one received message once the context is
    seen not done: the message it goes on to send, or [None] when the
    message is dropped. *)
Definition Operator_apply (op : Operator) (m : Message) : option Message :=
  match op with
  | MapOperator fn => Some (set_Value (fn (Value m)) m)
  | FilterOperator fn => if fn (Value m) then Some m else None
  end.

(** ** Sinks (pipeline.go, [Sink]) *)

(** An implementation of the [Sink] interface, by what its methods
    return: [sink_Write n m] is the result of the call [Write(ctx, m)]
    that follows [n] earlier calls, [sink_Close] the result of [Close()]
    ([None] is the nil error). *)
Record Sink : Type := mkSink {
  sink_Write : nat → Message → option error;
  sink_Close : option error
}.

(** ** Sources (source/cron.go, source/http.go, source/channel.go) *)

(** The [time.Duration] of an interval is an int64 number of nanoseconds.
    The generator of a cron source is a Go closure; [generator n] is what
    its call number [n] returns. *)
Inductive Source : Type :=
| CronSource (interval : Z) (generator : nat → T)
| HTTPSource (url : string) (interval : Z)
             (parser : list Byte.byte → T + error)
| ChannelSource (feed : list T) (feed_closes : bool)
| OtherSource (stream_err close_err : option error) (capacity : nat).

(** [ChannelSource feed closes]: the values the wrapped channel [in] will
    deliver, in order, and whether its producer closes it after the last
    one. [OtherSource] is any other implementation of the [Source]
    interface (such as the test's mock): what [Stream] and [Close]
    return, and a producer that may send any message or stop. *)

(** What the HTTP GET of one poll comes to. *)
Inductive PollOutcome : Type :=
| PollFailed                                   (* NewRequest or Do failed *)
| PollResponse (status : Z) (body : option (list Byte.byte)).
                                               (* body None: ReadAll failed *)

(** Control state of the producer goroutine of a source. *)
Inductive SrcTask : Type :=
| SInit                  (* HTTP: before NewTicker and the first poll *)
| SWait                  (* at the select of the loop *)
| SSend (m : Message)    (* at the select that sends m *)
| SExit                  (* returned; its channel is closed *)
| SPanic.                (* panicked: the process is gone *)

(** [Stream]: an error, or the channel and the goroutine it spawned. *)
Definition Source_Stream (src : Source) : error + (chan Message * SrcTask) :=
  match src with
  | CronSource interval _ =>
      if bool_decide (interval ≤ 0)
      then inl (errorString "interval must be positive")
      else inr (make_chan Message 10, SWait)
  | HTTPSource _ _ _ => inr (make_chan Message 10, SInit)
  | ChannelSource _ _ => inr (make_chan Message 100, SWait)
  | OtherSource (Some e) _ _ => inl e
  | OtherSource None _ capacity => inr (make_chan Message capacity, SWait)
  end.

Definition Source_Close (src : Source) : option error :=
  match src with
  | OtherSource _ close_err _ => close_err
  | _ => None
  end.

(** the sources this repository ships *)
Definition shipped (src : Source) : bool :=
  match src with OtherSource _ _ _ => false | _ => true end.

(** The message a cron tick builds; [time.Now()] is read twice. *)
Definition CronSource_message (generator : nat → T) (n : nat) (now1 now2 : Z)
  : Message :=
  mkMessage ("cron-" +:+ pretty now1) (generator n) now2 (Some ∅).

(** The message the channel source builds around a received value: a
    struct literal that sets [Value] and [Metadata] only. *)
Definition ChannelSource_message (val : T) : Message :=
  mkMessage "" val 0 (Some ∅).

(** [HTTPSource.poll] up to its final select: the message to send, if the
    poll got that far. *)
Definition HTTPSource_poll (url : string) (parser : list Byte.byte → T + error)
    (o : PollOutcome) (now : Z) : option Message :=
  match o with
  | PollFailed => None
  | PollResponse status body =>
      if bool_decide (status ≠ 200) then None
      else match body with
           | None => None
           | Some data =>
               match parser data with
               | inr _ => None
               | inl value =>
                   Some (mkMessage url value now
                           (Some (<["source" := "http"]>
                                  (<["url" := url]>
                                   (<["status" := pretty status]> ∅)))))
               end
           end
  end.

(** ** Pipelines (pipeline.go, [Pipeline] and its builder methods) *)

Record Pipeline : Type := mkPipeline {
  name : string;
  source : Source;
  operators : list Operator;
  sink : option Sink;          (* None: the nil interface value *)
  bufferCap : Z;
  errChan : chan error
}.

Definition New (name : string) (source : Source) : Pipeline :=
  mkPipeline name source [] None 100 (make_chan error 10).

Definition WithBufferSize (size : Z) (p : Pipeline) : Pipeline :=
  mkPipeline (name p) (source p) (operators p) (sink p) size (errChan p).

Definition Map (fn : T → T) (p : Pipeline) : Pipeline :=
  mkPipeline (name p) (source p) (operators p ++ [MapOperator fn]) (sink p)
             (bufferCap p) (errChan p).

Definition Filter (fn : T → bool) (p : Pipeline) : Pipeline :=
  mkPipeline (name p) (source p) (operators p ++ [FilterOperator fn]) (sink p)
             (bufferCap p) (errChan p).

Definition To (snk : Sink) (p : Pipeline) : Pipeline :=
  mkPipeline (name p) (source p) (operators p) (Some snk)
             (bufferCap p) (errChan p).

End Stream.
Arguments Message : clear implicits.
Arguments Operator : clear implicits.
Arguments Sink : clear implicits.
Arguments Source : clear implicits.
Arguments SrcTask : clear implicits.
Arguments Pipeline : clear implicits.

(** ** The state of one [Run] *)

(** Control state of the forwarder goroutine of an operator. *)
Inductive OpTask (T : Type) : Type :=
| ORecv                      (* at [for msg := range in] *)
| OSend (m : Message T)      (* at the select that sends m *)
| OExit.                     (* returned; its channel is closed *)
Arguments ORecv {T}.
Arguments OSend {T}.
Arguments OExit {T}.

(** Control state of the consumer goroutine that feeds the sink. *)
Inductive SinkTask : Type :=
| CRecv                      (* at [for msg := range current] *)
| CSendErr (e : error)       (* at the select that sends e on errChan *)
| CExit.                     (* returned: wg.Done() has run *)

(** The calls [Run] and its consumer make on the two interfaces and on
    the operators. *)
Inductive Event (T : Type) : Type :=
| EvStream                                   (* source.Stream(ctx) *)
| EvProcess (i : nat)                        (* operators[i].Process(ctx, _) *)
| EvWrite (m : Message T) (r : option error) (* sink.Write(ctx, m) = r *)
| EvSinkClose                                (* sink.Close() *)
| EvSourceClose.                             (* source.Close() *)
Arguments EvStream {T}.
Arguments EvProcess {T}.
Arguments EvWrite {T}.
Arguments EvSinkClose {T}.
Arguments EvSourceClose {T}.

Record RunState (T : Type) : Type := mkState {
  ctx : option error;            (* ctx.Err(): None until the context is done *)
  feed : list T;                 (* channel source: values still to come *)
  gen_calls : nat;               (* cron source: calls of the generator *)
  src_task : SrcTask T;
  chans : list (chan (Message T));
      (* chans[0] is the channel of the source, chans[i+1] the [out] of
         operator i; the consumer ranges over the last one *)
  op_tasks : list (OpTask T);
  consumer : SinkTask;
  errs : chan error;             (* p.errChan *)
  done : bool;                   (* close(done) has run *)
  ret : option (option error);   (* what Run returned, once it has *)
  calls : list (Event T)
}.
Arguments mkState {T}.
Arguments ctx {T}.
Arguments feed {T}.
Arguments gen_calls {T}.
Arguments src_task {T}.
Arguments chans {T}.
Arguments op_tasks {T}.
Arguments consumer {T}.
Arguments errs {T}.
Arguments done {T}.
Arguments ret {T}.
Arguments calls {T}.

(** One atomic move of a goroutine or of the environment. *)
Inductive Action (T : Type) : Type :=
| Cancel (reason : error)           (* the context becomes done *)
| SrcTick (now1 now2 : Z)           (* cron: ticker.C fires *)
| SrcPoll (o : PollOutcome) (now : Z) (* HTTP: first poll, or a tick's poll *)
| SrcRecv                           (* channel source: receive on [in] *)
| SrcEmit (m : Message T)           (* other source: a message is ready *)
| SrcStop                           (* other source: the producer stops *)
| SrcSend                           (* the send case of the producer *)
| SrcDone                           (* a [<-ctx.Done()] case of the producer *)
| OpRecv (i : nat)                  (* forwarder i: receive, check, transform *)
| OpSend (i : nat)                  (* forwarder i: the send case *)
| OpDone (i : nat)                  (* forwarder i: [<-ctx.Done()] while sending *)
| Consume                           (* consumer: receive and sink.Write *)
| ConsErrSend                       (* consumer: [p.errChan <- err] *)
| ConsDone                          (* consumer: [<-ctx.Done()] while sending *)
| Wait                              (* wg.Wait() returns; close(done) *)
| DriverDone                        (* Run's select: [<-done] *)
| DriverCancel                      (* Run's select: [<-ctx.Done()] *)
| DriverErr.                        (* Run's select: [err := <-p.errChan] *)
Arguments Cancel {T}.
Arguments SrcTick {T}.
Arguments SrcPoll {T}.
Arguments SrcRecv {T}.
Arguments SrcEmit {T}.
Arguments SrcStop {T}.
Arguments SrcSend {T}.
Arguments SrcDone {T}.
Arguments OpRecv {T}.
Arguments OpSend {T}.
Arguments OpDone {T}.
Arguments Consume {T}.
Arguments ConsErrSend {T}.
Arguments ConsDone {T}.
Arguments Wait {T}.
Arguments DriverDone {T}.
Arguments DriverCancel {T}.
Arguments DriverErr {T}.

Section Run.
Context {T : Type}.
Local Abbreviation Msg := (Message T).
Local Abbreviation State := (RunState T).

(** field updates *)
Definition set_ctx (v : option error) (s : State) : State :=
  mkState v (feed s) (gen_calls s) (src_task s) (chans s) (op_tasks s)
          (consumer s) (errs s) (done s) (ret s) (calls s).
Definition set_feed (v : list T) (s : State) : State :=
  mkState (ctx s) v (gen_calls s) (src_task s) (chans s) (op_tasks s)
          (consumer s) (errs s) (done s) (ret s) (calls s).
Definition set_gen_calls (v : nat) (s : State) : State :=
  mkState (ctx s) (feed s) v (src_task s) (chans s) (op_tasks s)
          (consumer s) (errs s) (done s) (ret s) (calls s).
Definition set_src_task (v : SrcTask T) (s : State) : State :=
  mkState (ctx s) (feed s) (gen_calls s) v (chans s) (op_tasks s)
          (consumer s) (errs s) (done s) (ret s) (calls s).
Definition set_chans (v : list (chan Msg)) (s : State) : State :=
  mkState (ctx s) (feed s) (gen_calls s) (src_task s) v (op_tasks s)
          (consumer s) (errs s) (done s) (ret s) (calls s).
Definition set_op_tasks (v : list (OpTask T)) (s : State) : State :=
  mkState (ctx s) (feed s) (gen_calls s) (src_task s) (chans s) v
          (consumer s) (errs s) (done s) (ret s) (calls s).
Definition set_consumer (v : SinkTask) (s : State) : State :=
  mkState (ctx s) (feed s) (gen_calls s) (src_task s) (chans s) (op_tasks s)
          v (errs s) (done s) (ret s) (calls s).
Definition set_errs (v : chan error) (s : State) : State :=
  mkState (ctx s) (feed s) (gen_calls s) (src_task s) (chans s) (op_tasks s)
          (consumer s) v (done s) (ret s) (calls s).
Definition set_done (v : bool) (s : State) : State :=
  mkState (ctx s) (feed s) (gen_calls s) (src_task s) (chans s) (op_tasks s)
          (consumer s) (errs s) v (ret s) (calls s).
Definition set_ret (v : option (option error)) (s : State) : State :=
  mkState (ctx s) (feed s) (gen_calls s) (src_task s) (chans s) (op_tasks s)
          (consumer s) (errs s) (done s) v (calls s).
Definition add_call (e : Event T) (s : State) : State :=
  mkState (ctx s) (feed s) (gen_calls s) (src_task s) (chans s) (op_tasks s)
          (consumer s) (errs s) (done s) (ret s) (calls s ++ [e]).

(** update of one channel of the chain, in place *)
Definition upd_chan (i : nat) (f : chan Msg → chan Msg) (s : State) : State :=
  set_chans (alter f i (chans s)) s.

Definition set_op_task (i : nat) (t : OpTask T) (s : State) : State :=
  set_op_tasks (<[i := t]> (op_tasks s)) s.

(** the number of [sink.Write] calls made so far *)
Definition is_write (e : Event T) : bool :=
  match e with EvWrite _ _ => true | _ => false end.
Definition writes (s : State) : nat :=
  length (filter (λ e, is_write e = true) (calls s)).

(** the messages given to [sink.Write] so far, in call order *)
Definition written_of (e : Event T) : list Msg :=
  match e with EvWrite m _ => [m] | _ => [] end.
Definition written (s : State) : list Msg :=
  calls s ≫= written_of.

(** the errors [sink.Write] has returned so far, in call order *)
Definition failure_of (e : Event T) : list error :=
  match e with EvWrite _ (Some err) => [err] | _ => [] end.
Definition write_errors (s : State) : list error :=
  calls s ≫= failure_of.

Definition is_close (e : Event T) : bool :=
  match e with EvSinkClose | EvSourceClose => true | _ => false end.

(** ** One step of a run *)

Section Step.
Variable src : Source T.
Variable ops : list (Operator T).
Variable snk : Sink T.

Definition cancelled (s : State) : bool :=
  match ctx s with Some _ => true | None => false end.

(** the producer returns: [defer close(out)] runs *)
Definition src_exit (s : State) : State :=
  set_src_task SExit (upd_chan 0 chan_close s).

(** after a poll: on to the send, or back to the loop *)
Definition after_poll (r : option Msg) : SrcTask T :=
  match r with Some m => SSend m | None => SWait end.

(** The producer goroutines of [CronSource.Stream], [HTTPSource.Stream]
    and [ChannelSource.Stream]. [time.NewTicker] panics on a non-positive
    interval. *)
Definition step_src (a : Action T) (s : State) : option State :=
  match a, src, src_task s with
  | SrcTick now1 now2, CronSource _ generator, SWait =>
      Some (set_src_task
              (SSend (CronSource_message generator (gen_calls s) now1 now2))
              (set_gen_calls (S (gen_calls s)) s))
  | SrcPoll o now, HTTPSource url interval parser, SInit =>
      if bool_decide (interval ≤ 0) then Some (set_src_task SPanic s)
      else Some (set_src_task (after_poll (HTTPSource_poll url parser o now)) s)
  | SrcPoll o now, HTTPSource url _ parser, SWait =>
      Some (set_src_task (after_poll (HTTPSource_poll url parser o now)) s)
  | SrcRecv, ChannelSource _ closes, SWait =>
      match feed s with
      | val :: rest =>
          Some (set_src_task (SSend (ChannelSource_message val)) (set_feed rest s))
      | [] => if closes then Some (src_exit s) else None
      end
  | SrcEmit m, OtherSource _ _ _, SWait => Some (set_src_task (SSend m) s)
  | SrcStop, OtherSource _ _ _, SWait => Some (src_exit s)
  | SrcSend, _, SSend m =>
      c ← chans s !! 0%nat;
      if has_room c
      then Some (set_src_task SWait (upd_chan 0 (chan_push m) s))
      else None
  | SrcDone, _, SWait => if cancelled s then Some (src_exit s) else None
  | SrcDone, HTTPSource _ _ _, SSend _ =>
      (* the select inside poll: poll returns, the loop goes on *)
      if cancelled s then Some (set_src_task SWait s) else None
  | SrcDone, _, SSend _ => if cancelled s then Some (src_exit s) else None
  | _, _, _ => None
  end.

(** the forwarder returns: [defer close(out)] runs *)
Definition op_exit (i : nat) (s : State) : State :=
  set_op_task i OExit (upd_chan (S i) chan_close s).

Definition after_apply (r : option Msg) : OpTask T :=
  match r with Some m => OSend m | None => ORecv end.

(** The forwarder goroutines of [MapOperator.Process] and
    [FilterOperator.Process]; forwarder [i] ranges over [chans[i]] and
    sends on [chans[i+1]]. *)
Definition step_op (a : Action T) (s : State) : option State :=
  match a with
  | OpRecv i =>
      op ← ops !! i; t ← op_tasks s !! i; cin ← chans s !! i;
      match t with
      | ORecv =>
          match buf cin with
          | m :: _ =>
              let s1 := upd_chan i chan_pop s in
              if cancelled s then Some (op_exit i s1)
              else Some (set_op_task i (after_apply (Operator_apply op m)) s1)
          | [] => if closed cin then Some (op_exit i s) else None
          end
      | _ => None
      end
  | OpSend i =>
      t ← op_tasks s !! i; cout ← chans s !! S i;
      match t with
      | OSend m =>
          if has_room cout
          then Some (set_op_task i ORecv (upd_chan (S i) (chan_push m) s))
          else None
      | _ => None
      end
  | OpDone i =>
      t ← op_tasks s !! i;
      match t with
      | OSend _ => if cancelled s then Some (op_exit i s) else None
      | _ => None
      end
  | _ => None
  end.

(** The consumer goroutine of [Run] and the goroutine that waits for it. *)
Definition step_sink (a : Action T) (s : State) : option State :=
  match a, consumer s with
  | Consume, CRecv =>
      cin ← chans s !! length ops;
      match buf cin with
      | m :: _ =>
          let r := sink_Write snk (writes s) m in
          let s1 := add_call (EvWrite m r) (upd_chan (length ops) chan_pop s) in
          match r with
          | Some err => Some (set_consumer (CSendErr (wrapError "sink write: " err)) s1)
          | None => Some s1
          end
      | [] => if closed cin then Some (set_consumer CExit s) else None
      end
  | ConsErrSend, CSendErr e =>
      if has_room (errs s)
      then Some (set_consumer CRecv (set_errs (chan_push e (errs s)) s))
      else None
  | ConsDone, CSendErr _ =>
      if cancelled s then Some (set_consumer CExit s) else None
  | Wait, CExit => if done s then None else Some (set_done true s)
  | _, _ => None
  end.

(** The [<-done] case of [Run]'s select. *)
Definition Run_finish (s : State) : State :=
  let s1 := add_call EvSinkClose s in
  match sink_Close snk with
  | Some err => set_ret (Some (Some (wrapError "close sink: " err))) s1
  | None =>
      let s2 := add_call EvSourceClose s1 in
      match Source_Close src with
      | Some err => set_ret (Some (Some (wrapError "close source: " err))) s2
      | None => set_ret (Some None) s2
      end
  end.

(** The select at the end of [Run]. *)
Definition step_driver (a : Action T) (s : State) : option State :=
  match ret s with
  | Some _ => None
  | None =>
      match a with
      | DriverDone => if done s then Some (Run_finish s) else None
      | DriverCancel =>
          match ctx s with
          | Some reason => Some (set_ret (Some (Some reason)) s)
          | None => None
          end
      | DriverErr =>
          match buf (errs s) with
          | err :: _ => Some (set_ret (Some (Some err)) (set_errs (chan_pop (errs s)) s))
          | [] => None
          end
      | _ => None
      end
  end.

(** each action belongs to one goroutine, or to the environment *)
Definition dispatch (a : Action T) (s : State) : option State :=
  match a with
  | Cancel reason =>
      match ctx s with
      | None => Some (set_ctx (Some reason) s)
      | Some _ => None
      end
  | SrcTick _ _ | SrcPoll _ _ | SrcRecv | SrcEmit _ | SrcStop
  | SrcSend | SrcDone => step_src a s
  | OpRecv _ | OpSend _ | OpDone _ => step_op a s
  | Consume | ConsErrSend | ConsDone | Wait => step_sink a s
  | DriverDone | DriverCancel | DriverErr => step_driver a s
  end.

(** a panic of the producer goroutine ends the process: nothing moves
    after it *)
Definition step (a : Action T) (s : State) : option State :=
  match src_task s with
  | SPanic => None
  | _ => dispatch a s
  end.

(** a schedule, run from a state; [None] when one of its actions is not
    enabled where it stands *)
Fixpoint exec (sched : list (Action T)) (s : State) : option State :=
  match sched with
  | [] => Some s
  | a :: sched' => s' ← step a s; exec sched' s'
  end.

End Step.

(** ** The start of [Run], up to its select *)

(** [Process] of the two operators: the channel made and the goroutine
    spawned; the error returned is always nil. *)
Definition Operator_Process (op : Operator T) : error + (chan Msg * OpTask T) :=
  match op with
  | MapOperator _ => inr (make_chan Msg 100, ORecv)
  | FilterOperator _ => inr (make_chan Msg 100, ORecv)
  end.

Inductive Started : Type :=
| RunFailed (made : list (Event T)) (err : error)  (* Run returned err *)
| RunStarted (s : State).

(** the loop [for _, op := range p.operators] *)
Fixpoint Run_operators (i : nat) (l : list (Operator T)) (s : State) : Started :=
  match l with
  | [] => RunStarted s
  | op :: l' =>
      match Operator_Process op with
      | inl err =>
          RunFailed (calls s ++ [EvProcess i]) (wrapError "process operator: " err)
      | inr (c, t) =>
          Run_operators (S i) l'
            (add_call (EvProcess i)
               (set_op_tasks (op_tasks s ++ [t]) (set_chans (chans s ++ [c]) s)))
      end
  end.

Definition feed_of (src : Source T) : list T :=
  match src with ChannelSource feed _ => feed | _ => [] end.

(** [Run] from its first line to the select; [ctx0] is the state of the
    context it is given. *)
Definition Run_start (p : Pipeline T) (ctx0 : option error) : Started :=
  match sink p with
  | None => RunFailed [] (errorString "sink is required")
  | Some _ =>
      match Source_Stream (source p) with
      | inl err => RunFailed [EvStream] (wrapError "start source: " err)
      | inr (c, t) =>
          Run_operators 0 (operators p)
            (mkState ctx0 (feed_of (source p)) 0 t [c] [] CRecv (errChan p)
                     false None [EvStream])
      end
  end.

End Run.

(** ** What a run promises: flows, invariants and a termination measure *)

Section Specs.
Context {T : Type}.
Local Abbreviation Msg := (Message T).
Local Abbreviation State := (RunState T).

(** the message a goroutine holds between its receive and its send *)
Definition held_src (t : SrcTask T) : list Msg :=
  match t with SSend m => [m] | _ => [] end.
Definition held_op (t : OpTask T) : list Msg :=
  match t with OSend m => [m] | _ => [] end.

Definition src_exited (t : SrcTask T) : bool :=
  match t with SExit => true | _ => false end.
Definition op_exited (t : OpTask T) : bool :=
  match t with OExit => true | _ => false end.

(** an operator over a whole sequence of messages *)
Definition apply_all (op : Operator T) (l : list Msg) : list Msg :=
  omap (Operator_apply op) l.

(** the operators of a pipeline, first to last, over a sequence *)
Definition Pipeline_output (ops : list (Operator T)) (input : list Msg) : list Msg :=
  foldl (λ l op, apply_all op l) input ops.

(** [flow_in up ops ts cs]: the messages that are still to come out of
    the last channel of the chain [cs], in order, when [up] is what is
    still to be sent on its first channel and nothing is cancelled:
    what a channel holds leaves it before what is sent on it later, and
    what a forwarder holds is sent before what it receives later. *)
Fixpoint flow_in (up : list Msg) (ops : list (Operator T))
    (ts : list (OpTask T)) (cs : list (chan Msg)) {struct cs} : list Msg :=
  match cs with
  | [] => up
  | c :: cs' =>
      match ops, ts with
      | op :: ops', t :: ts' =>
          flow_in (held_op t ++ apply_all op (buf c ++ up)) ops' ts' cs'
      | _, _ => buf c ++ up
      end
  end.

(** what the source is still to send on its channel *)
Definition src_up (s : State) : list Msg :=
  held_src (src_task s) ++ map ChannelSource_message (feed s).

(** [chain_ok ex ops ts cs cons]: the chain of channels and forwarders is
    well formed when the producer of its first channel has exited iff
    [ex]: a channel is closed exactly when its producer has exited, has a
    positive capacity, and a forwarder (or the consumer) that has exited
    has left its input channel closed and empty. *)
Fixpoint chain_ok (ex : bool) (ops : list (Operator T)) (ts : list (OpTask T))
    (cs : list (chan Msg)) (cons : SinkTask) {struct cs} : Prop :=
  match cs with
  | [] => False
  | c :: cs' =>
      closed c = ex ∧ (0 < cap c)%nat ∧
      match ops, ts with
      | _ :: ops', t :: ts' =>
          (op_exited t = true → closed c = true ∧ buf c = []) ∧
          chain_ok (op_exited t) ops' ts' cs' cons
      | [], [] => cs' = [] ∧ (cons = CExit → closed c = true ∧ buf c = [])
      | _, _ => False
      end
  end.

(** steps still to be taken by the chain: a message in a channel with [n]
    forwarders ahead of it is received and sent [n] times and consumed
    once; a forwarder that has not exited has its return to take *)
Fixpoint mu_chain (ts : list (OpTask T)) (cs : list (chan Msg)) {struct cs} : nat :=
  match cs with
  | [] => 0
  | c :: cs' =>
      length (buf c) * (2 * length ts + 1) +
      match ts with
      | [] => 0
      | t :: ts' =>
          match t with
          | ORecv => 1
          | OSend _ => 1 + 2 * length ts
          | OExit => 0
          end + mu_chain ts' cs'
      end
  end%nat.

Definition mu (s : State) : nat :=
  (length (feed s) * (2 * length (op_tasks s) + 3) +
   match src_task s with
   | SWait | SInit => 1
   | SSend _ => 2 * length (op_tasks s) + 3
   | _ => 0
   end +
   mu_chain (op_tasks s) (chans s) +
   match consumer s with CExit => 0 | _ => 1 end +
   (if done s then 0 else 1) +
   match ret s with Some _ => 0 | None => 1 end)%nat.

Definition is_cancel (a : Action T) : bool :=
  match a with Cancel _ => true | _ => false end.

(** the state of a run of a channel-source pipeline whose sink never
    fails, as long as the context is not done *)
Record quiet_inv (ops : list (Operator T)) (expected : list Msg) (s : State)
  : Prop := {
  qi_chain : chain_ok (src_exited (src_task s)) ops (op_tasks s) (chans s)
                      (consumer s);
  qi_src : src_task s ≠ SInit ∧ src_task s ≠ SPanic;
  qi_feed : src_exited (src_task s) = true → feed s = [];
  qi_flow : written s ++ flow_in (src_up s) ops (op_tasks s) (chans s) = expected;
  qi_cons : ∀ e, consumer s ≠ CSendErr e;
  qi_errs : buf (errs s) = [];
  qi_done : done s = true → consumer s = CExit;
  qi_ret : ∀ r, ret s = Some r → r = None ∧ done s = true
}.

(** every message a state holds or has handed to the sink satisfies [P] *)
Record all_messages (P : Msg → Prop) (s : State) : Prop := {
  am_src : Forall P (held_src (src_task s));
  am_chans : Forall (λ c, Forall P (buf c)) (chans s);
  am_ops : Forall (λ t, Forall P (held_op t)) (op_tasks s);
  am_written : Forall P (written s)
}.

(** the [Close] calls made so far *)
Definition close_calls (s : State) : list (Event T) :=
  filter (λ e, is_close e = true) (calls s).

(** the error the consumer is about to send on [errChan] *)
Definition pending_err (t : SinkTask) : list error :=
  match t with CSendErr e => [e] | _ => [] end.

(** the errors on their way to [Run]: queued on [errChan], or held by
    the consumer *)
Definition errs_sent (s : State) : list error :=
  buf (errs s) ++ pending_err (consumer s).

(** Until [Run] returns, the errors of the failed writes are on their
    way to it wrapped and in order: all of them, unless the consumer gave
    up a send on cancellation, which ends it. *)
Definition errs_inv (s : State) : Prop :=
  ret s = None →
  errs_sent s `prefix_of` map (wrapError "sink write: ") (write_errors s) ∧
  (consumer s ≠ CExit ∨ ctx s = None →
   errs_sent s = map (wrapError "sink write: ") (write_errors s)).

(** the state [Run] reaches its select in *)
Definition init_state (p : Pipeline T) (ctx0 : option error)
    (c : chan Msg) (t : SrcTask T) : State :=
  mkState ctx0 (feed_of (source p)) 0 t
    (c :: replicate (length (operators p)) (make_chan Msg 100))
    (replicate (length (operators p)) ORecv)
    CRecv (errChan p) false None
    (EvStream :: map EvProcess (seq 0 (length (operators p)))).

(** every envelope the producer of a source builds satisfies [P] *)
Definition source_makes (src : Source T) (P : Msg → Prop) : Prop :=
  match src with
  | CronSource _ generator =>
      ∀ n now1 now2, P (CronSource_message generator n now1 now2)
  | HTTPSource url _ parser =>
      ∀ o now m, HTTPSource_poll url parser o now = Some m → P m
  | ChannelSource _ _ => ∀ val, P (ChannelSource_message val)
  | OtherSource _ _ _ => ∀ m, P m
  end.


End Specs.

(** ** What every run keeps: the order of the envelopes *)

Section LiveSpecs.
Context {T : Type}.
Local Abbreviation Msg := (Message T).
Local Abbreviation State := (RunState T).

(** an operator over a sequence of values *)
Definition Operator_values (op : Operator T) (l : list T) : list T :=
  match op with
  | MapOperator fn => map fn l
  | FilterOperator fn => List.filter fn l
  end.

Definition Pipeline_values (ops : list (Operator T)) (input : list T) : list T :=
  foldl (λ l op, Operator_values op l) input ops.

(** what a forwarder is still to send, [up] being what is still to be
    sent on its input channel: nothing once it has returned *)
Definition stage_out (op : Operator T) (t : OpTask T) (c : chan Msg)
    (up : list Msg) : list Msg :=
  if op_exited t then [] else held_op t ++ apply_all op (buf c ++ up).

Fixpoint flow_live (up : list Msg) (ops : list (Operator T))
    (ts : list (OpTask T)) (cs : list (chan Msg)) {struct cs} : list Msg :=
  match cs with
  | [] => up
  | c :: cs' =>
      match ops, ts with
      | op :: ops', t :: ts' => flow_live (stage_out op t c up) ops' ts' cs'
      | _, _ => buf c ++ up
      end
  end.

Definition src_live (s : State) : list Msg :=
  if src_exited (src_task s) then [] else src_up s.

(** the messages the sink can still be given *)
Definition to_come (ops : list (Operator T)) (s : State) : list Msg :=
  match consumer s with
  | CExit => []
  | _ => flow_live (src_live s) ops (op_tasks s) (chans s)
  end.

Definition shape_ok (ops : list (Operator T)) (s : State) : Prop :=
  length (op_tasks s) = length ops ∧ length (chans s) = S (length ops).

End LiveSpecs.

(** ** What every run keeps: channels and goroutines *)

Section LinkSpecs.
Context {T : Type}.
Local Abbreviation Msg := (Message T).
Local Abbreviation State := (RunState T).

(** whether the goroutine that sends on channel [j] of the chain has
    returned: the producer of the source for channel 0, forwarder [i] for
    channel [i+1] *)
Definition sender_exited (st : SrcTask T) (ts : list (OpTask T)) (j : nat) : bool :=
  match j with
  | O => src_exited st
  | S i => default false (op_exited <$> ts !! i)
  end.

(** every channel of the chain is closed exactly when its sender has
    returned *)
Definition links (st : SrcTask T) (ts : list (OpTask T)) (cs : list (chan Msg))
  : Prop :=
  ∀ j c, cs !! j = Some c → closed c = sender_exited st ts j.

Definition chan_bounded {A} (c : chan A) : Prop := (length (buf c) ≤ cap c)%nat.

Record run_inv (ops : list (Operator T)) (s : State) : Prop := {
  ri_tasks : length (op_tasks s) = length ops;
  ri_chans : length (chans s) = S (length ops);
  ri_links : links (src_task s) (op_tasks s) (chans s);
  ri_errs : closed (errs s) = false;
  ri_bounded : Forall chan_bounded (chans s);
  ri_errs_bounded : chan_bounded (errs s);
  ri_done : done s = true → consumer s = CExit
}.

(** the channel an action sends on, if it is a send *)
Definition sends_on (a : Action T) : option nat :=
  match a with
  | SrcSend => Some 0%nat
  | OpSend i => Some (S i)
  | _ => None
  end.

(** a source whose producer does not panic: the interval given to
    [time.NewTicker] must be positive *)
Definition positive_interval (src : Source T) : Prop :=
  match src with
  | HTTPSource _ interval _ => 0 < interval
  | _ => True
  end.

(** the producer of [src] can be where [st] says *)
Definition src_ok (src : Source T) (st : SrcTask T) : Prop :=
  match st with
  | SInit => match src with HTTPSource _ _ _ => True | _ => False end
  | SPanic => False
  | _ => True
  end.

(** every goroutine of the run has returned, and so has [Run] *)
Definition all_returned (s : State) : Prop :=
  src_task s = SExit ∧ Forall (λ t, t = OExit) (op_tasks s) ∧
  consumer s = CExit ∧ done s = true ∧ is_Some (ret s) ∧
  Forall (λ c, closed c = true) (chans s).

(** [s'] can be reached from [s] by some schedule *)
Definition reach (src : Source T) (ops : list (Operator T)) (snk : Sink T)
    (s s' : State) : Prop :=
  ∃ sched, exec src ops snk sched s = Some s'.

(** the facts a shutdown relies on, kept by every step *)
Record cancelled_inv (src : Source T) (ops : list (Operator T)) (s : State)
  : Prop := {
  ci_ctx : is_Some (ctx s);
  ci_src : src_ok src (src_task s);
  ci_run : run_inv ops s
}.

End LinkSpecs.

(** ** What [Run] returns *)

Section OutcomeSpecs.
Context {T : Type}.
Local Abbreviation Msg := (Message T).
Local Abbreviation State := (RunState T).

(** What [Run] can have returned in state [s], by the case of its select
    that was taken. *)
Definition Run_outcome (src : Source T) (snk : Sink T) (s : State)
    (r : option error) : Prop :=
  (* <-done, both closes succeed *)
  (r = None ∧ sink_Close snk = None ∧ Source_Close src = None ∧
   done s = true ∧ close_calls s = [EvSinkClose; EvSourceClose]) ∨
  (* <-done, the sink fails to close *)
  (∃ e, r = Some (wrapError "close sink: " e) ∧ sink_Close snk = Some e ∧
        done s = true ∧ close_calls s = [EvSinkClose]) ∨
  (* <-done, the source fails to close *)
  (∃ e, r = Some (wrapError "close source: " e) ∧ sink_Close snk = None ∧
        Source_Close src = Some e ∧
        done s = true ∧ close_calls s = [EvSinkClose; EvSourceClose]) ∨
  (* <-ctx.Done() *)
  (∃ e, r = Some e ∧ ctx s = Some e ∧ close_calls s = []) ∨
  (* <-p.errChan *)
  (∃ e rest, r = Some (wrapError "sink write: " e) ∧
             write_errors s = e :: rest ∧ close_calls s = []).

End OutcomeSpecs.

(** ** Where the envelopes of a run have got to *)

Section StageSpecs.
Context {T : Type}.
Local Abbreviation Msg := (Message T).
Local Abbreviation State := (RunState T).

(** one envelope through the operators, first to last: what comes out,
    if no filter drops it *)
Fixpoint apply_chain (ops : list (Operator T)) (m : Msg) : option Msg :=
  match ops with
  | [] => Some m
  | op :: ops' => m' ← Operator_apply op m; apply_chain ops' m'
  end.

(** [m] is what the first [j] operators make of an envelope of the source *)
Definition through (P0 : Msg → Prop) (ops : list (Operator T)) (j : nat)
    (m : Msg) : Prop :=
  ∃ m0, P0 m0 ∧ apply_chain (take j ops) m0 = Some m.

(** every envelope of a state is where it has got to: on channel [j]
    after [j] operators, held by forwarder [i] after [i+1], at the sink
    after all of them *)
Record staged (P0 : Msg → Prop) (ops : list (Operator T)) (s : State) : Prop := {
  sg_src : Forall (through P0 ops 0) (held_src (src_task s));
  sg_chans : ∀ j c, chans s !! j = Some c → Forall (through P0 ops j) (buf c);
  sg_ops : ∀ i t, op_tasks s !! i = Some t →
                  Forall (through P0 ops (S i)) (held_op t);
  sg_written : Forall (through P0 ops (length ops)) (written s)
}.

End StageSpecs.

(** ** The HTTP sink (sink/http.go) *)

Section HTTPSink.
Context {T : Type}.
Local Abbreviation Msg := (Message T).

(** The [client] of the sink is the network as the sink sees it: what
    its requests come to is given with each [Write]. *)
Record HTTPSink : Type := mkHTTPSink {
  http_url : string;
  http_marshaler : T → list Byte.byte + error;
  http_method : string;
  http_headers : gmap string string
}.


Definition HTTPSink_WithMethod (method : string) (h : HTTPSink) : HTTPSink :=
  mkHTTPSink (http_url h) (http_marshaler h) method (http_headers h).


Definition HTTPSink_WithMarshaler (fn : T → list Byte.byte + error)
    (h : HTTPSink) : HTTPSink :=
  mkHTTPSink (http_url h) fn (http_method h) (http_headers h).

(** The request [Write] builds: the arguments of
    [http.NewRequestWithContext] and the [Header.Set] calls, one for each
    entry of the [headers] map. *)
Record HTTPRequest : Type := mkHTTPRequest {
  req_method : string;
  req_url : string;
  req_body : list Byte.byte;
  req_headers : gmap string string
}.

(** What becomes of the request. *)
Inductive SendOutcome : Type :=
| RequestFailed (e : error)      (* NewRequestWithContext returns an error *)
| DoFailed (e : error)           (* client.Do returns an error *)
| Responded (status : Z).        (* resp.StatusCode *)

(** [Write] up to its request: the marshalling error, or the request. *)
Definition HTTPSink_request (h : HTTPSink) (msg : Msg) : error + HTTPRequest :=
  match http_marshaler h (Value msg) with
  | inr err => inl (wrapError "marshal message: " err)
  | inl data =>
      inr (mkHTTPRequest (http_method h) (http_url h) data (http_headers h))
  end.

Definition HTTPSink_Write (h : HTTPSink) (o : SendOutcome) (msg : Msg)
  : option error :=
  match HTTPSink_request h msg with
  | inl err => Some err
  | inr _ =>
      match o with
      | RequestFailed err => Some (wrapError "create request: " err)
      | DoFailed err => Some (wrapError "send request: " err)
      | Responded status =>
          if bool_decide (status < 200) || bool_decide (300 ≤ status)
          then Some (errorString ("unexpected status code: " +:+ pretty status))
          else None
      end
  end.




End HTTPSink.
Arguments HTTPSink : clear implicits.


(** ** Runs used as examples *)

Definition okSink : Sink Z := mkSink (λ _ _, None) None.

(** the pipeline of [TestPipelineBasic], over the channel source *)
Definition test_pipeline : Pipeline Z :=
  To okSink
    (Map (λ n, n * 2)
       (Filter (λ n, Z.even n) (New "test" (ChannelSource [1; 2; 3; 4; 5] true)))).

Definition test_start : RunState Z :=
  init_state test_pipeline None (make_chan (Message Z) 100) SWait.

(** one schedule of its goroutines, up to the return of [Run] *)
Definition test_schedule : list (Action Z) :=
  [SrcRecv; SrcSend; OpRecv 0; SrcRecv; SrcSend; OpRecv 0; OpSend 0; OpRecv 1;
   OpSend 1; Consume; SrcRecv; SrcSend; OpRecv 0; SrcRecv; SrcSend; OpRecv 0;
   OpSend 0; OpRecv 1; OpSend 1; Consume; SrcRecv; SrcSend; OpRecv 0; SrcRecv;
   OpRecv 0; OpRecv 1; Consume; Wait; DriverDone].

Definition test_run (sched : list (Action Z)) : RunState Z :=
  default test_start
    (exec (source test_pipeline) (operators test_pipeline) okSink sched test_start).

(** the state after nine steps, with an envelope queued for the sink *)
Definition test_midway : RunState Z :=
  Eval vm_compute in test_run (take 9 test_schedule).

(** the state in which [Run] takes its [<-done] case, and the one after *)
Definition test_before_done : RunState Z :=
  Eval vm_compute in test_run (take 28 test_schedule).

Definition test_final : RunState Z :=
  Eval vm_compute in test_run test_schedule.

(** a pipeline of one map *)
Definition map_pipeline : Pipeline Z :=
  To okSink (Map (λ n, n + 1) (New "map" (ChannelSource [7; 9] true))).

Definition map_start : RunState Z :=
  init_state map_pipeline None (make_chan (Message Z) 100) SWait.

Definition map_schedule : list (Action Z) :=
  [SrcRecv; SrcSend; SrcRecv; SrcSend; SrcRecv; OpRecv 0; OpSend 0; OpRecv 0;
   OpSend 0; OpRecv 0; Consume; Consume; Consume; Wait; DriverDone].

Definition map_final : RunState Z :=
  Eval vm_compute in
    default map_start
      (exec (source map_pipeline) (operators map_pipeline) okSink
            map_schedule map_start).

(** a pipeline configured with buffer size 1 *)
Definition small_buffer_pipeline : Pipeline Z :=
  To okSink
    (Map (λ n, n + 1)
       (WithBufferSize 1 (New "small" (ChannelSource [7] true)))).

(** an HTTP poll source with interval zero *)
Definition zero_interval_source : Source Z :=
  HTTPSource "http://localhost/feed" 0 (λ _, inl 0).

Definition zero_interval_start : RunState Z :=
  init_state (To okSink (New "poll" zero_interval_source)) None
             (make_chan (Message Z) 10) SInit.

(** a sink whose second [Write] fails *)
Definition failing_sink : Sink Z :=
  mkSink (λ n _, if bool_decide (n = 1%nat) then Some (errorString "refused") else None)
         None.

Definition failing_pipeline : Pipeline Z :=
  To failing_sink (New "failing" (ChannelSource [1; 2] true)).

Definition failing_start : RunState Z :=
  init_state failing_pipeline None (make_chan (Message Z) 100) SWait.

Definition failing_schedule : list (Action Z) :=
  [SrcRecv; SrcSend; Consume; SrcRecv; SrcSend; Consume; ConsErrSend].





(** a pipeline of three operators *)
Definition three_pipeline : Pipeline Z :=
  To okSink
    (Map (λ n, n * 3)
       (Filter (λ n, Z.even n)
          (Map (λ n, n + 1) (New "three" (ChannelSource [1; 2; 3] true))))).

Definition three_start : RunState Z :=
  init_state three_pipeline None (make_chan (Message Z) 100) SWait.

(** the run of [TestPipelineBasic] cancelled after its first write; the
    producer of the source then returns *)
Definition cancelled_schedule : list (Action Z) :=
  take 10 test_schedule ++ [Cancel (errorString "context canceled"); SrcDone].

Definition cancelled_state : RunState Z :=
  Eval vm_compute in test_run cancelled_schedule.

(** and the state after [Run]'s select has taken [<-ctx.Done()] *)
Definition cancelled_returned : RunState Z :=
  Eval vm_compute in test_run (cancelled_schedule ++ [DriverCancel]).

(** the state after six steps, with forwarder 0 at its send *)
Definition test_sending : RunState Z :=
  Eval vm_compute in test_run (take 6 test_schedule).

Definition test_sent : RunState Z :=
  Eval vm_compute in test_run (take 7 test_schedule).

(** a timer source with interval zero *)
Definition zero_cron_pipeline : Pipeline Z :=
  To okSink (New "cron" (CronSource 0 (λ n, Z.of_nat n))).

(** a pipeline over the HTTP poll source, after one poll *)
Definition poll_pipeline : Pipeline Z :=
  To okSink
    (Map (λ n, n + 1)
       (New "poll" (HTTPSource "http://localhost/feed" 5000000000 (λ _, inl 7)))).

Definition poll_start : RunState Z :=
  init_state poll_pipeline None (make_chan (Message Z) 10) SInit.

Definition poll_schedule : list (Action Z) :=
  [SrcPoll (PollResponse 200 (Some [])) 1700000000; SrcSend; OpRecv 0%nat;
   SrcPoll (PollResponse 503 (Some [])) 1700000005; OpSend 0%nat; Consume].

Definition poll_state : RunState Z :=
  Eval vm_compute in
    default poll_start
      (exec (source poll_pipeline) (operators poll_pipeline) okSink
            poll_schedule poll_start).

(** the pipeline of examples/streaming over the timer source, after two
    ticks *)
Definition cron_pipeline : Pipeline Z :=
  To okSink
    (Filter (λ n, Z.even n)
       (Map (λ n, n * 2)
          (New "number-pipeline" (CronSource 1000000000 (λ n, Z.of_nat n))))).

Definition cron_start : RunState Z :=
  init_state cron_pipeline None (make_chan (Message Z) 10) SWait.

Definition cron_schedule : list (Action Z) :=
  [SrcTick 1700000000 1700000000; SrcSend; SrcTick 1700000001 1700000001;
   OpRecv 0%nat; OpSend 0%nat; OpRecv 1%nat; OpSend 1%nat; Consume].

Definition cron_state : RunState Z :=
  Eval vm_compute in
    default cron_start
      (exec (source cron_pipeline) (operators cron_pipeline) okSink
            cron_schedule cron_start).







(** * Properties *)

(** ** The start of a run *)

Section StartLemmas.
Context {T : Type}.
Local Abbreviation Msg := (Message T).
Local Abbreviation State := (RunState T).

Lemma Run_operators_spec i l (s : State) :
  Run_operators i l s =
  RunStarted
    (mkState (ctx s) (feed s) (gen_calls s) (src_task s)
       (chans s ++ replicate (length l) (make_chan Msg 100))
       (op_tasks s ++ replicate (length l) ORecv)
       (consumer s) (errs s) (done s) (ret s)
       (calls s ++ map EvProcess (seq i (length l)))).
Proof.
  revert i s. induction l as [|op l IH]; intros i s; simpl.
  - rewrite !app_nil_r. by destruct s.
  - destruct op; simpl; rewrite IH; simpl;
      by rewrite <- !app_assoc.
Qed.

Lemma Run_start_started (p : Pipeline T) ctx0 s0 :
  Run_start p ctx0 = RunStarted s0 →
  ∃ snk c t, sink p = Some snk ∧ Source_Stream (source p) = inr (c, t) ∧
             s0 = init_state p ctx0 c t.
Proof.
  unfold Run_start. destruct (sink p) as [snk|]; [|done].
  destruct (Source_Stream (source p)) as [e|[c t]]; [done|].
  rewrite Run_operators_spec. simpl. intros [= <-]. by exists snk, c, t.
Qed.

(** C4. A pipeline with no sink attached: [Run] fails at once with the
    configuration error, having called neither [Stream] on the source nor
    [Process] on any operator, and having spawned no goroutine. *)
Theorem Run_without_sink (p : Pipeline T) (ctx0 : option error) :
  sink p = None →
  Run_start p ctx0 = RunFailed [] (errorString "sink is required").
Proof. intros Hs. unfold Run_start. by rewrite Hs. Qed.

Lemma CronSource_Stream_nonpositive interval (generator : nat → T) :
  interval ≤ 0 →
  Source_Stream (CronSource interval generator)
  = inl (errorString "interval must be positive").
Proof. intros Hi. simpl. by rewrite bool_decide_eq_true_2. Qed.

(** C5, at the HTTP source. [HTTPSource.Stream] has no check of its
    interval: with a non-positive one it still returns its channel and a
    nil error, with the producer goroutine spawned; that goroutine then
    panics in [time.NewTicker]. *)
Theorem HTTPSource_Stream_nonpositive url interval
    (parser : list Byte.byte → T + error)
    (ops : list (Operator T)) (snk : Sink T) (s : State) o now :
  interval ≤ 0 →
  Source_Stream (HTTPSource url interval parser)
  = inr (make_chan Msg 10, SInit) ∧
  (src_task s = SInit →
   step (HTTPSource url interval parser) ops snk (SrcPoll o now) s
   = Some (set_src_task SPanic s)).
Proof.
  intros Hi. split; [done|]. intros Ht. unfold step, dispatch, step_src. rewrite Ht.
  by rewrite bool_decide_eq_true_2.
Qed.

(** C6, on the code. [WithBufferSize] stores the size it is given and
    changes nothing a run reads: the channels the operators make are of
    capacity 100 whatever the setting is. *)
Theorem WithBufferSize_ignored (p : Pipeline T) (size : Z) ctx0 :
  bufferCap (WithBufferSize size p) = size ∧
  Run_start (WithBufferSize size p) ctx0 = Run_start p ctx0 ∧
  ∀ s0, Run_start (WithBufferSize size p) ctx0 = RunStarted s0 →
        Forall (λ c, cap c = 100%nat) (tail (chans s0)).
Proof.
  split_and!; [done..|]. intros s0 (snk & c & t & _ & _ & ->)%Run_start_started.
  simpl. apply Forall_replicate. done.
Qed.

End StartLemmas.

(** ** The chain of channels and forwarders *)

Section ChainLemmas.
Context {T : Type}.
Local Abbreviation Msg := (Message T).
Local Abbreviation State := (RunState T).
Implicit Types (up : list Msg) (ex : bool) (ops : list (Operator T))
  (ts : list (OpTask T)) (cs : list (chan Msg)) (cons : SinkTask)
  (c : chan Msg) (m : Msg) (i : nat).

Ltac norm_lists :=
  repeat match goal with
  | |- context [alter ?f ?i ?l] => change (alter f i l) with (list_alter f i l)
  | H : context [alter ?f ?i ?l] |- _ => change (alter f i l) with (list_alter f i l) in H
  | |- context [insert ?i ?x ?l] => change (insert i x l) with (list_insert i x l)
  | H : context [insert ?i ?x ?l] |- _ => change (insert i x l) with (list_insert i x l) in H
  end.

Lemma apply_all_cons op m l :
  apply_all op (m :: l) = held_op (after_apply (Operator_apply op m)) ++ apply_all op l.
Proof. unfold apply_all. simpl. by destruct (Operator_apply op m). Qed.

Lemma op_exited_after_apply (r : option Msg) : op_exited (after_apply r) = false.
Proof. by destruct r. Qed.

Lemma chain_ok_shape ex ops ts cs cons :
  chain_ok ex ops ts cs cons →
  length ts = length ops ∧ length cs = S (length ops).
Proof.
  revert ex ts cs. induction ops as [|op ops IH]; intros ex [|t ts] [|c cs]; simpl; try tauto.
  - intros (_ & _ & -> & _). done.
  - intros (_ & _ & _ & H%IH). lia.
Qed.

Lemma chain_ok_cons ex op ops t ts c cs cons :
  chain_ok ex (op :: ops) (t :: ts) (c :: cs) cons ↔
  closed c = ex ∧ (0 < cap c)%nat ∧
  (op_exited t = true → closed c = true ∧ buf c = []) ∧
  chain_ok (op_exited t) ops ts cs cons.
Proof. done. Qed.

Lemma chain_ok_head ex ops ts c cs cons :
  chain_ok ex ops ts (c :: cs) cons → closed c = ex ∧ (0 < cap c)%nat.
Proof. simpl. tauto. Qed.

Lemma flow_in_cons up op ops t ts c cs :
  flow_in up (op :: ops) (t :: ts) (c :: cs)
  = flow_in (held_op t ++ apply_all op (buf c ++ up)) ops ts cs.
Proof. done. Qed.

Lemma mu_chain_cons t ts c cs :
  mu_chain (t :: ts) (c :: cs)
  = (length (buf c) * (2 * length (t :: ts) + 1) +
     (match t with ORecv => 1 | OSend _ => 1 + 2 * length (t :: ts) | OExit => 0 end
      + mu_chain ts cs))%nat.
Proof. done. Qed.

(** forwarder [i] receives a message and keeps or drops it *)
Lemma chain_recv i up ex ops ts cs cons op c m rest :
  ops !! i = Some op → ts !! i = Some ORecv → cs !! i = Some c →
  buf c = m :: rest →
  chain_ok ex ops ts cs cons →
  chain_ok ex ops (<[i := after_apply (Operator_apply op m)]> ts)
           (alter chan_pop i cs) cons ∧
  flow_in up ops (<[i := after_apply (Operator_apply op m)]> ts)
          (alter chan_pop i cs) = flow_in up ops ts cs ∧
  (mu_chain (<[i := after_apply (Operator_apply op m)]> ts) (alter chan_pop i cs)
   < mu_chain ts cs)%nat.
Proof.
  revert up ex ops ts cs.
  induction i as [|i IH]; intros up ex [|op0 ops] [|t0 ts] [|c0 cs]; simpl; try done.
  - intros [= ->] [= ->] [= ->] Hb (Hcl & Hcap & _ & Hok).
    rewrite Hb, op_exited_after_apply. simpl. split_and!; try done.
    + by destruct (Operator_apply op m).
    + destruct (Operator_apply op m); simpl; nia.
  - intros Ho Ht Hc Hb (Hcl & Hcap & Hex & Hok).
    destruct (IH (held_op t0 ++ apply_all op0 (buf c0 ++ up)) (op_exited t0)
                ops ts cs Ho Ht Hc Hb Hok) as (H1 & H2 & H3).
    rewrite length_insert. split_and!; try done. norm_lists. lia.
Qed.


(** closing the first channel of a chain whose producer exits *)
Lemma chain_close up ops ts c cs cons :
  chain_ok false ops ts (c :: cs) cons →
  chain_ok true ops ts (chan_close c :: cs) cons ∧
  flow_in up ops ts (chan_close c :: cs) = flow_in up ops ts (c :: cs) ∧
  mu_chain ts (chan_close c :: cs) = mu_chain ts (c :: cs).
Proof.
  simpl. intros (Hcl & Hcap & Hok). split_and!; try done.
  destruct ops, ts; try done.
  - destruct Hok as (-> & Hc). split; [done|]. intros [? ?]%Hc; congruence.
  - destruct Hok as (Hex & Hok). split; [|done]. intros [? ?]%Hex; congruence.
Qed.

(** forwarder [i] finds its input closed and empty, and returns *)
Lemma chain_exit i up ex ops ts cs cons c :
  ts !! i = Some ORecv → cs !! i = Some c →
  buf c = [] → closed c = true →
  chain_ok ex ops ts cs cons →
  chain_ok ex ops (<[i := OExit]> ts) (alter chan_close (S i) cs) cons ∧
  flow_in up ops (<[i := OExit]> ts) (alter chan_close (S i) cs)
  = flow_in up ops ts cs ∧
  (mu_chain (<[i := OExit]> ts) (alter chan_close (S i) cs) < mu_chain ts cs)%nat.
Proof.
  revert up ex ops ts cs.
  induction i as [|i IH]; intros up ex [|op0 ops] [|t0 ts] [|c0 cs]; simpl; try done.
  1, 3: by intros ? ? ? ? (_ & _ & []).
  - intros [= ->] [= ->] Hb Hc (Hcl & Hcap & _ & Hok).
    destruct cs as [|c1 cs]; [by destruct ops, ts|].
    destruct (chain_close (apply_all op0 (buf c ++ up)) _ _ _ _ _ Hok)
      as (H1 & H2 & H3).
    simpl in H1, H2, H3 |- *. destruct H1 as (? & ? & ?). rewrite Hb in *.
    split_and!; try done. norm_lists. lia.
  - intros Ht Hc Hb Hc' (Hcl & Hcap & Hex & Hok).
    destruct (IH (held_op t0 ++ apply_all op0 (buf c0 ++ up)) (op_exited t0)
                ops ts cs Ht Hc Hb Hc' Hok) as (H1 & H2 & H3).
    rewrite length_insert. split_and!; try done. norm_lists. lia.
Qed.

(** forwarder [i] sends the message it holds *)
Lemma chain_send i up ex ops ts cs cons c m :
  ts !! i = Some (OSend m) → cs !! S i = Some c →
  chain_ok ex ops ts cs cons →
  chain_ok ex ops (<[i := ORecv]> ts) (alter (chan_push m) (S i) cs) cons ∧
  flow_in up ops (<[i := ORecv]> ts) (alter (chan_push m) (S i) cs)
  = flow_in up ops ts cs ∧
  (mu_chain (<[i := ORecv]> ts) (alter (chan_push m) (S i) cs) < mu_chain ts cs)%nat.
Proof.
  revert up ex ops ts cs.
  induction i as [|i IH]; intros up ex [|op0 ops] [|t0 ts] [|c0 cs]; simpl; try done.
  1, 3: by intros ? ? (_ & _ & []).
  - intros [= ->] Hc (Hcl & Hcap & _ & Hok).
    destruct cs as [|c1 cs]; [done|]. simpl in Hc. injection Hc as ->.
    simpl in *. destruct Hok as (Hcl1 & Hcap1 & Hok).
    split_and!; try done.
    + destruct ops, ts; try done.
      * destruct Hok as (-> & Hc). split; [done|]. intros [? ?]%Hc; congruence.
      * destruct Hok as (Hex & Hok). split; [|done]. intros [? ?]%Hex; congruence.
    + destruct ops, ts; simpl; by rewrite <- ?app_assoc.
    + rewrite length_app. simpl. destruct ts; simpl; nia.
  - intros Ht Hc (Hcl & Hcap & Hex & Hok).
    destruct (IH (held_op t0 ++ apply_all op0 (buf c0 ++ up)) (op_exited t0)
                ops ts cs Ht Hc Hok) as (H1 & H2 & H3).
    rewrite length_insert. split_and!; try done. norm_lists. lia.
Qed.

(** the consumer receives a message *)
Lemma chain_consume up ex ops ts cs c m rest :
  cs !! length ops = Some c → buf c = m :: rest →
  chain_ok ex ops ts cs CRecv →
  chain_ok ex ops ts (alter chan_pop (length ops) cs) CRecv ∧
  flow_in up ops ts cs = m :: flow_in up ops ts (alter chan_pop (length ops) cs) ∧
  (mu_chain ts (alter chan_pop (length ops) cs) < mu_chain ts cs)%nat.
Proof.
  revert up ex ts cs.
  induction ops as [|op0 ops IH]; intros up ex [|t0 ts] [|c0 cs]; simpl; try tauto.
  - intros [= ->] Hb (Hcl & Hcap & -> & _). rewrite Hb. simpl.
    split_and!; try done. lia.
  - intros Hc Hb (Hcl & Hcap & Hex & Hok).
    destruct (IH (held_op t0 ++ apply_all op0 (buf c0 ++ up)) (op_exited t0)
                ts cs Hc Hb Hok) as (H1 & H2 & H3).
    split_and!; try done. norm_lists. lia.
Qed.

(** the consumer finds its input closed and empty, and returns *)
Lemma chain_consumer_exit up ex ops ts cs c :
  cs !! length ops = Some c → buf c = [] → closed c = true →
  chain_ok ex ops ts cs CRecv →
  chain_ok ex ops ts cs CExit.
Proof.
  revert ex ts cs.
  induction ops as [|op0 ops IH]; intros ex [|t0 ts] [|c0 cs]; simpl; try tauto.
  - intros [= ->] Hb Hc (Hcl & Hcap & -> & _). done.
  - intros Hc Hb Hc' (Hcl & Hcap & Hex & Hok). split_and!; try done.
    by apply IH.
Qed.

(** once the consumer has returned nothing is left to flow *)
Lemma chain_drained up ex ops ts cs :
  chain_ok ex ops ts cs CExit → (ex = true → up = []) →
  flow_in up ops ts cs = [].
Proof.
  revert up ex ts cs.
  induction ops as [|op0 ops IH]; intros up ex [|t0 ts] [|c0 cs]; simpl; try tauto.
  - intros (Hcl & Hcap & -> & Hc) Hup. destruct Hc as [Hc ->]; [done|].
    rewrite Hup; [done|]. congruence.
  - intros (Hcl & Hcap & Hex & Hok) Hup. eapply IH; [done|].
    intros Ht. destruct (Hex Ht) as [Hc ->].
    rewrite Hup by congruence. by destruct t0.
Qed.

(** the source sends the message it holds *)
Lemma chain_src_send up ops ts c cs cons m :
  chain_ok false ops ts (c :: cs) cons →
  chain_ok false ops ts (chan_push m c :: cs) cons ∧
  flow_in up ops ts (chan_push m c :: cs) = flow_in (m :: up) ops ts (c :: cs) ∧
  mu_chain ts (chan_push m c :: cs) = (mu_chain ts (c :: cs) + (2 * length ts + 1))%nat.
Proof.
  simpl. intros (Hcl & Hcap & Hok). split_and!; try done.
  - destruct ops, ts; try done.
    + destruct Hok as (-> & Hc). split; [done|]. intros [? ?]%Hc; congruence.
    + destruct Hok as (Hex & Hok). split; [|done]. intros [? ?]%Hex; congruence.
  - destruct ops, ts; simpl; by rewrite <- ?app_assoc.
  - rewrite length_app. simpl. lia.
Qed.

(** the chain [Run] builds *)
Lemma chain_init up ops c :
  closed c = false → (0 < cap c)%nat → buf c = [] →
  chain_ok false ops (replicate (length ops) ORecv)
           (c :: replicate (length ops) (make_chan Msg 100)) CRecv ∧
  flow_in up ops (replicate (length ops) ORecv)
          (c :: replicate (length ops) (make_chan Msg 100))
  = Pipeline_output ops up ∧
  mu_chain (replicate (length ops) ORecv)
           (c :: replicate (length ops) (make_chan Msg 100)) = length ops.
Proof.
  revert up c. induction ops as [|op ops IH]; intros up c Hcl Hcap Hb.
  - simpl. rewrite Hb. split_and!; done.
  - destruct (IH (apply_all op up) (make_chan Msg 100)) as (H1 & H2 & H3);
      [done | simpl; lia | done |].
    cbn [length replicate].
    rewrite chain_ok_cons, flow_in_cons, mu_chain_cons, Hb.
    cbn [op_exited held_op length app]. rewrite H2, H3.
    split_and!; try done; lia.
Qed.

Lemma drop_cons_inv {A} (l : list A) k x l' :
  drop k l = x :: l' → l !! k = Some x ∧ drop (S k) l = l'.
Proof.
  intros H. split.
  - rewrite <- (Nat.add_0_r k), <- lookup_drop, H. done.
  - replace (S k) with (k + 1)%nat by lia. rewrite <- drop_drop, H. done.
Qed.

Lemma no_room_nonempty (c : chan Msg) :
  (0 < cap c)%nat → has_room c = false → buf c ≠ [].
Proof.
  unfold has_room. intros Hc Hr%bool_decide_eq_false Hb.
  rewrite Hb in Hr. simpl in Hr. lia.
Qed.

(** Unless its consumer has returned, a well-formed chain has a
    goroutine that can move, from any channel on that is closed or not
    empty. *)
Lemma chain_progress src snk ops (s : State) opsS k ex :
  ctx s = None → src_task s ≠ SPanic → consumer s = CRecv →
  length (chans s) = S (length ops) →
  drop k ops = opsS →
  chain_ok ex opsS (drop k (op_tasks s)) (drop k (chans s)) CRecv →
  (∀ c, chans s !! k = Some c → buf c ≠ [] ∨ closed c = true) →
  ∃ a s', is_cancel a = false ∧ step src ops snk a s = Some s'.
Proof.
  intros Hctx Hsrc Hcons Hlen. revert k ex.
  assert (Hstep : ∀ a, step src ops snk a s = dispatch src ops snk a s).
  { intros a. unfold step. by destruct (src_task s). }
  assert (Hnc : cancelled s = false) by (unfold cancelled; by rewrite Hctx).
  induction opsS as [|op opsS IH]; intros k ex Hops Hok Hc.
  - destruct (drop k (chans s)) as [|c cs] eqn:Hcs; [done|].
    destruct (drop k (op_tasks s)) as [|t ts] eqn:Hts; simpl in Hok; [|tauto].
    destruct Hok as (_ & _ & -> & _).
    apply drop_cons_inv in Hcs as [Hck Hcs].
    assert (k = length ops) as ->.
    { apply lookup_lt_Some in Hck. apply (f_equal length) in Hops.
      rewrite length_drop in Hops. simpl in Hops. lia. }
    exists Consume. rewrite Hstep. unfold dispatch, step_sink. rewrite Hcons, Hck. simpl.
    destruct (buf c) as [|m rest] eqn:Hb.
    + destruct (Hc c Hck) as [?| ->]; [done|]. eauto.
    + destruct (sink_Write snk (writes s) m); eauto.
  - destruct (drop k (chans s)) as [|c cs] eqn:Hcs; [done|].
    destruct (drop k (op_tasks s)) as [|t ts] eqn:Hts; simpl in Hok; [tauto|].
    destruct Hok as (Hcl & Hcap & Hex & Hok).
    apply drop_cons_inv in Hcs as [Hck Hcs].
    apply drop_cons_inv in Hts as [Htk Hts].
    apply drop_cons_inv in Hops as [Hopk Hops].
    destruct t as [|m|].
    + exists (OpRecv k). rewrite Hstep. unfold dispatch, step_op.
      rewrite Hopk, Htk, Hck. simpl. rewrite Hnc.
      destruct (buf c) as [|m rest] eqn:Hb.
      * destruct (Hc c Hck) as [?| ->]; [done|]. eauto.
      * eauto.
    + destruct cs as [|c1 cs1] eqn:Hcs1; [by destruct opsS, ts|].
      pose proof Hcs as Hcs'. apply drop_cons_inv in Hcs' as [Hck1 _].
      destruct (has_room c1) eqn:Hroom.
      * exists (OpSend k). rewrite Hstep. unfold dispatch, step_op.
        rewrite Htk, Hck1. simpl. rewrite Hroom. eauto.
      * eapply (IH (S k)); [exact Hops | rewrite Hts, Hcs; exact Hok |].
        intros c' Hc'. rewrite Hck1 in Hc'. injection Hc' as <-. left.
        apply no_room_nonempty; [|done]. simpl in Hok. tauto.
    + eapply (IH (S k)); [exact Hops | rewrite Hts, Hcs; exact Hok |].
      intros c' Hc'. right. destruct cs as [|c1 cs1]; [by destruct opsS, ts|].
      apply drop_cons_inv in Hcs as [Hck1 _]. rewrite Hck1 in Hc'.
      injection Hc' as <-. simpl in Hok. tauto.
Qed.

End ChainLemmas.

(** ** Steps and schedules *)

(** case analysis of a step that was taken *)
Ltac step_cases H :=
  unfold step, dispatch, step_src, step_op, step_sink, step_driver, Run_finish,
    cancelled in H;
  repeat (first [ progress simplify_option_eq | case_match ]).

(** the calls recorded by a state, after a step *)
Ltac calls_simpl :=
  unfold close_calls, write_errors, written in *; simpl in *;
  rewrite ?filter_app, ?bind_app; simpl; rewrite ?app_nil_r.

Section RunLemmas.
Context {T : Type}.
Local Abbreviation Msg := (Message T).
Local Abbreviation State := (RunState T).
Variable src : Source T.
Variable ops : list (Operator T).
Variable snk : Sink T.

Lemma step_dispatch a (s s' : State) :
  step src ops snk a s = Some s' →
  src_task s ≠ SPanic ∧ dispatch src ops snk a s = Some s'.
Proof. unfold step. by destruct (src_task s). Qed.

(** the context is never reset *)
Lemma step_ctx a (s s' : State) :
  step src ops snk a s = Some s' → ctx s' = None → ctx s = None.
Proof.
  intros [_ H]%step_dispatch. destruct a; step_cases H; simpl; congruence.
Qed.

(** only the environment changes the context *)
Lemma step_ctx_keep a (s s' : State) :
  step src ops snk a s = Some s' → is_cancel a = false → ctx s' = ctx s.
Proof.
  intros [_ H]%step_dispatch Ha. destruct s.
  destruct a; try done; step_cases H; done.
Qed.

Lemma exec_ctx sched (s s' : State) :
  exec src ops snk sched s = Some s' → ctx s' = None → ctx s = None.
Proof.
  revert s. induction sched as [|a sched IH]; intros s; simpl.
  - by intros [= ->].
  - destruct (step src ops snk a s) as [s1|] eqn:Hs; [|done]. simpl.
    intros H1 H2. eapply step_ctx; eauto.
Qed.

End RunLemmas.

(** ** How a run ends *)

Section Outcome.
Context {T : Type}.
Local Abbreviation Msg := (Message T).
Local Abbreviation State := (RunState T).
Variable src : Source T.
Variable ops : list (Operator T).
Variable snk : Sink T.

(** an invariant of the steps holds along a schedule *)
Lemma exec_inv (I : State → Prop) sched (s0 s : State) :
  (∀ a s s', I s → step src ops snk a s = Some s' → I s') →
  I s0 → exec src ops snk sched s0 = Some s → I s.
Proof.
  intros Hstep. revert s0. induction sched as [|a sched IH]; intros s0 H0; simpl.
  - by intros [= <-].
  - destruct (step src ops snk a s0) as [s1|] eqn:Hs; [|done]. simpl.
    apply IH. by eapply Hstep.
Qed.

(** once [Run] has returned, what it returned and the [Close] calls made
    are settled *)
Lemma step_returned a (s s' : State) r :
  step src ops snk a s = Some s' → ret s = Some r →
  ret s' = Some r ∧ close_calls s' = close_calls s.
Proof.
  intros [_ H]%step_dispatch Hr. destruct s. simpl in Hr. subst.
  destruct a; step_cases H; calls_simpl; try done.
  all: match goal with |- ?G => idtac G end.
Qed.


Lemma step_close_calls a (s s' : State) :
  step src ops snk a s = Some s' → a ≠ DriverDone →
  close_calls s' = close_calls s.
Proof.
  intros [_ H]%step_dispatch Ha. destruct s.
  destruct a; step_cases H; calls_simpl; done.
Qed.

(** no [Close] is called before [Run]'s select is decided *)
Lemma step_no_close a (s s' : State) :
  (ret s = None → close_calls s = []) →
  step src ops snk a s = Some s' →
  ret s' = None → close_calls s' = [].
Proof.
  intros Hi [_ H]%step_dispatch Hr. destruct s. simpl in Hi.
  destruct a; step_cases H; calls_simpl; auto.
Qed.

Lemma step_errs_inv a (s s' : State) :
  errs_inv s → step src ops snk a s = Some s' → errs_inv s'.
Proof.
  intros Hi [_ H]%step_dispatch. destruct s. unfold errs_inv, errs_sent in *.
  simpl in Hi.
  destruct a; step_cases H; calls_simpl; try done.
  all: intros Hr; destruct (Hi Hr) as [Hp He]; clear Hi;
    rewrite ?app_nil_r in Hp, He.
  - (* Cancel *) split; [done|]. intros [?|?]; [auto|done].
  - (* Consume: the input is closed *) split; [done|]. intros _. auto.
  - (* Consume: the write fails *)
    rewrite He by (by left). rewrite fmap_app. split; [done|]. done.
  - (* Consume: the write succeeds *) split; [done|]. intros _. auto.
  - (* ConsErrSend *) split; [done|]. intros _. apply He. by left.
  - (* ConsDone *)
    split; [|intros [?|?]; congruence].
    etrans; [|exact Hp]. by apply prefix_app_r.
  - (* Wait *) split; [done|]. intros [?|?]; [done|auto].
Qed.

Lemma step_errs_cap a (s s' : State) :
  step src ops snk a s = Some s' → cap (errs s') = cap (errs s).
Proof.
  intros [_ H]%step_dispatch. destruct s.
  destruct a; step_cases H; done.
Qed.

Lemma step_live a (s : State) :
  src_task s ≠ SPanic → step src ops snk a s = dispatch src ops snk a s.
Proof. unfold step. by destruct (src_task s). Qed.

(** The error case of [Run]'s select: what is received is the error of
    the first failed write, wrapped. *)
Lemma DriverErr_first (s s' : State) e rest :
  errs_inv s → write_errors s = e :: rest →
  step src ops snk DriverErr s = Some s' →
  ret s' = Some (Some (wrapError "sink write: " e)).
Proof.
  intros Hi Hw [_ H]%step_dispatch. simpl in H. unfold step_driver in H.
  destruct (ret s) eqn:Hr; [done|]. destruct (Hi Hr) as [[k Hp] _].
  unfold errs_sent in Hp. rewrite Hw in Hp.
  destruct (buf (errs s)) as [|e' b]; [done|]. injection H as <-.
  simpl in *. congruence.
Qed.



(** The [<-done] case of [Run]'s select. *)
Lemma DriverDone_closes (s s' : State) :
  (ret s = None → close_calls s = []) →
  step src ops snk DriverDone s = Some s' →
  close_calls s'
  = EvSinkClose :: match sink_Close snk with Some _ => [] | None => [EvSourceClose] end ∧
  ret s'
  = Some match sink_Close snk with
         | Some e => Some (wrapError "close sink: " e)
         | None =>
             match Source_Close src with
             | Some e => Some (wrapError "close source: " e)
             | None => None
             end
         end.
Proof.
  intros Hi [_ H]%step_dispatch. destruct s. simpl in Hi.
  step_cases H; calls_simpl; rewrite Hi by done; done.
Qed.

End Outcome.

(** ** Runs that are not cancelled and whose sink never fails *)

Section Quiet.
Context {T : Type}.
Local Abbreviation Msg := (Message T).
Local Abbreviation State := (RunState T).
Variable feed0 : list T.
Variable ops : list (Operator T).
Variable snk : Sink T.
Variable expected : list Msg.
Hypothesis Write_ok : ∀ n m, sink_Write snk n m = None.
Hypothesis Close_ok : sink_Close snk = None.

Local Arguments flow_in : simpl never.
Local Arguments chain_ok : simpl never.
Local Arguments mu_chain : simpl never.

Ltac qsimpl :=
  unfold mu, src_up, written, writes, upd_chan, set_op_task, op_exit, src_exit;
  simpl.

Lemma quiet_step_src a (s s' : State) :
  match a with
  | SrcTick _ _ | SrcPoll _ _ | SrcRecv | SrcEmit _ | SrcStop | SrcSend | SrcDone => True
  | _ => False
  end →
  ctx s = None →
  quiet_inv ops expected s →
  dispatch (ChannelSource feed0 true) ops snk a s = Some s' →
  quiet_inv ops expected s' ∧ (mu s' < mu s)%nat.
Proof.
  intros Ha Hctx [Hch [Hs1 Hs2] Hfeed Hflow Hcons Herrs Hdone Hret] H.
  destruct s as [cx fd gen st cs ts cons ers dn rt cl].
  unfold mu, src_up, written in *. simpl in *. subst cx.
  destruct a; try done; clear Ha; simpl in H; unfold step_src, cancelled in H;
    simpl in H; destruct st as [| |m| |]; try done.
  - (* SrcRecv *)
    destruct fd as [|v rest]; injection H as <-; simpl.
    + (* the feed is closed *)
      destruct cs as [|c cs]; [done|].
      destruct (chain_close [] _ _ _ _ _ Hch) as (H1 & H2 & H3).
      split; [split|]; qsimpl; rewrite ?H2, ?H3; try done; lia.
    + split; [split|]; qsimpl; try done; lia.
  - (* SrcSend *)
    destruct cs as [|c cs]; [done|]. simpl in H.
    destruct (has_room c); [|done]. injection H as <-.
    destruct (chain_src_send (map ChannelSource_message fd) _ _ _ _ _ m Hch)
      as (H1 & H2 & H3).
    split; [split|]; qsimpl; rewrite ?H2, ?H3; try done; lia.
Qed.

Lemma quiet_step_op a (s s' : State) :
  match a with OpRecv _ | OpSend _ | OpDone _ => True | _ => False end →
  ctx s = None →
  quiet_inv ops expected s →
  dispatch (ChannelSource feed0 true) ops snk a s = Some s' →
  quiet_inv ops expected s' ∧ (mu s' < mu s)%nat.
Proof.
  intros Ha Hctx [Hch [Hs1 Hs2] Hfeed Hflow Hcons Herrs Hdone Hret] H.
  destruct s as [cx fd gen st cs ts cons ers dn rt cl].
  unfold mu, src_up, written in *. simpl in *. subst cx.
  destruct a; try done; clear Ha; simpl in H; unfold step_op, cancelled in H;
    simpl in H.
  - (* OpRecv *)
    destruct (ops !! i) as [op|] eqn:Hop; [|done].
    destruct (ts !! i) as [t|] eqn:Ht; [|done].
    destruct (cs !! i) as [c|] eqn:Hc; [|done]. simpl in H.
    destruct t; try done.
    destruct (buf c) as [|m rest] eqn:Hb.
    + destruct (closed c) eqn:Hcl; [|done]. injection H as <-.
      destruct (chain_exit i (held_src st ++ map ChannelSource_message fd)
                  _ _ _ _ _ _ Ht Hc Hb Hcl Hch) as (H1 & H2 & H3).
      split; [split|]; qsimpl; rewrite ?length_insert, ?H2; try done; lia.
    + injection H as <-.
      destruct (chain_recv i (held_src st ++ map ChannelSource_message fd)
                  _ _ _ _ _ _ _ _ _ Hop Ht Hc Hb Hch) as (H1 & H2 & H3).
      split; [split|]; qsimpl; rewrite ?length_insert, ?H2; try done; lia.
  - (* OpSend *)
    destruct (ts !! i) as [t|] eqn:Ht; [|done].
    destruct (cs !! S i) as [c|] eqn:Hc; [|done]. simpl in H.
    destruct t as [|m|]; try done.
    destruct (has_room c); [|done]. injection H as <-.
    destruct (chain_send i (held_src st ++ map ChannelSource_message fd)
                _ _ _ _ _ _ _ Ht Hc Hch) as (H1 & H2 & H3).
    split; [split|]; qsimpl; rewrite ?length_insert, ?H2; try done; lia.
  - (* OpDone *)
    destruct (ts !! i) as [[]|]; done.
Qed.

Lemma quiet_step_sink a (s s' : State) :
  match a with Consume | ConsErrSend | ConsDone | Wait => True | _ => False end →
  ctx s = None →
  quiet_inv ops expected s →
  dispatch (ChannelSource feed0 true) ops snk a s = Some s' →
  quiet_inv ops expected s' ∧ (mu s' < mu s)%nat.
Proof.
  intros Ha Hctx [Hch [Hs1 Hs2] Hfeed Hflow Hcons Herrs Hdone Hret] H.
  destruct s as [cx fd gen st cs ts cons ers dn rt cl].
  unfold mu, src_up, written in *. simpl in *. subst cx.
  destruct a; try done; clear Ha; simpl in H; unfold step_sink, cancelled in H;
    simpl in H; destruct cons as [|e|]; try done; try (by destruct (Hcons e)).
  - (* Consume *)
    destruct (cs !! length ops) as [c|] eqn:Hc; [|done]. simpl in H.
    destruct (buf c) as [|m rest] eqn:Hb.
    + destruct (closed c) eqn:Hcl; [|done]. injection H as <-.
      pose proof (chain_consumer_exit (held_src st ++ map ChannelSource_message fd)
                    _ _ _ _ _ Hc Hb Hcl Hch) as H1.
      split; [split|]; qsimpl; try done. lia.
    + rewrite Write_ok in H. injection H as <-.
      destruct (chain_consume (held_src st ++ map ChannelSource_message fd)
                  _ _ _ _ _ _ _ Hc Hb Hch) as (H1 & H2 & H3).
      split; [split|]; qsimpl; try done.
      * rewrite bind_app. simpl. rewrite <- app_assoc. simpl.
        by rewrite <- H2.
      * lia.
  - (* Wait *)
    destruct dn; [done|]. injection H as <-.
    split; [split|]; qsimpl; try done.
    + intros r Hr. by destruct (Hret r Hr).
    + lia.
Qed.

Lemma quiet_step_driver a (s s' : State) :
  match a with DriverDone | DriverCancel | DriverErr => True | _ => False end →
  ctx s = None →
  quiet_inv ops expected s →
  dispatch (ChannelSource feed0 true) ops snk a s = Some s' →
  quiet_inv ops expected s' ∧ (mu s' < mu s)%nat.
Proof.
  intros Ha Hctx [Hch [Hs1 Hs2] Hfeed Hflow Hcons Herrs Hdone Hret] H.
  destruct s as [cx fd gen st cs ts cons ers dn rt cl].
  unfold mu, src_up, written in *. simpl in *. subst cx.
  destruct a; try done; clear Ha; simpl in H;
    unfold step_driver, Run_finish in H; simpl in H;
    destruct rt; try done.
  - (* DriverDone *)
    destruct dn; [|done]. rewrite Close_ok in H. simpl in H. injection H as <-.
    split; [split|]; qsimpl; rewrite ?bind_app, ?app_nil_r; try done.
    + intros r [= <-]. done.
    + specialize (Hdone eq_refl) as ->. lia.
  - (* DriverErr *)
    by rewrite Herrs in H.
Qed.

(** Every step of an uncancelled run of a channel-source pipeline whose
    sink never fails keeps the state well formed and uses up the measure. *)
Lemma quiet_step a (s s' : State) :
  quiet_inv ops expected s →
  step (ChannelSource feed0 true) ops snk a s = Some s' →
  ctx s' = None →
  quiet_inv ops expected s' ∧ (mu s' < mu s)%nat.
Proof.
  intros Hq Hs Hctx. pose proof (step_ctx _ _ _ _ _ _ Hs Hctx) as Hctx0.
  apply step_dispatch in Hs as [_ Hs].
  destruct a;
    first [ refine (quiet_step_src _ _ _ _ Hctx0 Hq Hs); exact I
          | refine (quiet_step_op _ _ _ _ Hctx0 Hq Hs); exact I
          | refine (quiet_step_sink _ _ _ _ Hctx0 Hq Hs); exact I
          | refine (quiet_step_driver _ _ _ _ Hctx0 Hq Hs); exact I
          | idtac ].
  simpl in Hs. rewrite Hctx0 in Hs. injection Hs as <-. done.
Qed.

Lemma quiet_exec sched (s0 s : State) :
  quiet_inv ops expected s0 →
  exec (ChannelSource feed0 true) ops snk sched s0 = Some s →
  ctx s = None →
  quiet_inv ops expected s ∧ (length sched + mu s ≤ mu s0)%nat.
Proof.
  revert s0. induction sched as [|a sched IH]; intros s0 Hq; simpl.
  - intros [= ->] _. split; [done|lia].
  - destruct (step (ChannelSource feed0 true) ops snk a s0) as [s1|] eqn:Hs;
      [|done]. simpl. intros He Hctx.
    pose proof (exec_ctx _ _ _ _ _ _ He Hctx) as Hctx1.
    destruct (quiet_step _ _ _ Hq Hs Hctx1) as [Hq1 Hmu].
    destruct (IH _ Hq1 He Hctx) as [Hq2 Hlen]. split; [done|lia].
Qed.

Lemma quiet_progress (s : State) :
  quiet_inv ops expected s → ctx s = None → ret s = None →
  ∃ a s', is_cancel a = false ∧
          step (ChannelSource feed0 true) ops snk a s = Some s'.
Proof.
  intros [Hch [Hs1 Hs2] Hfeed Hflow Hcons Herrs Hdone Hret] Hctx Hr.
  assert (Hstep : ∀ a, step (ChannelSource feed0 true) ops snk a s
                       = dispatch (ChannelSource feed0 true) ops snk a s).
  { intros a. unfold step. by destruct (src_task s). }
  destruct (done s) eqn:Hd.
  { exists DriverDone. rewrite Hstep. simpl. unfold step_driver.
    rewrite Hr, Hd. eauto. }
  destruct (consumer s) as [|e|] eqn:Hc; [|by destruct (Hcons e)|].
  2:{ exists Wait. rewrite Hstep. simpl. unfold step_sink. rewrite Hc, Hd. eauto. }
  destruct (chain_ok_shape _ _ _ _ _ Hch) as [Hl1 Hl2].
  destruct (chans s) as [|c cs] eqn:Hcs; [done|].
  assert (Hc0 : chans s !! 0%nat = Some c) by (by rewrite Hcs).
  destruct (src_task s) as [| |m| |] eqn:Ht; try done.
  - (* the source is at its receive *)
    exists SrcRecv. rewrite Hstep. simpl. unfold step_src. rewrite Ht.
    destruct (feed s); eauto.
  - (* the source is at its send *)
    destruct (has_room c) eqn:Hroom.
    + exists SrcSend. rewrite Hstep. simpl. unfold step_src. rewrite Ht, Hc0.
      simpl. rewrite Hroom. eauto.
    + eapply (chain_progress _ _ _ _ ops 0%nat); try done.
      * congruence.
      * by rewrite Hcs.
      * rewrite !drop_0, Hcs. exact Hch.
      * intros c' Hc'. rewrite Hc0 in Hc'. injection Hc' as <-. left.
        apply no_room_nonempty; [|done]. by apply chain_ok_head in Hch as [_ ?].
  - (* the source has returned *)
    eapply (chain_progress _ _ _ _ ops 0%nat); try done.
    * congruence.
    * by rewrite Hcs.
    * rewrite !drop_0, Hcs. exact Hch.
    * intros c' Hc'. rewrite Hc0 in Hc'. injection Hc' as <-. right.
      by apply chain_ok_head in Hch as [? _].
Qed.

Lemma quiet_returned (s : State) r :
  quiet_inv ops expected s → ret s = Some r →
  r = None ∧ written s = expected.
Proof.
  intros [Hch [Hs1 Hs2] Hfeed Hflow Hcons Herrs Hdone Hret] Hr.
  destruct (Hret r Hr) as [-> Hd]. split; [done|].
  rewrite <- Hflow. rewrite (Hdone Hd) in Hch.
  rewrite (chain_drained _ _ _ _ _ Hch); [by rewrite app_nil_r|].
  intros Hex. unfold src_up. rewrite (Hfeed Hex).
  by destruct (src_task s).
Qed.

(** An uncancelled run can always be taken on to the return of [Run],
    whatever has been scheduled so far. *)
Lemma quiet_completes (s : State) :
  quiet_inv ops expected s → ctx s = None →
  ∃ sched' s', exec (ChannelSource feed0 true) ops snk sched' s = Some s' ∧
               ctx s' = None ∧ ret s' = Some None ∧ written s' = expected.
Proof.
  remember (mu s) as n eqn:Hn. revert s Hn.
  induction n as [n IH] using lt_wf_ind. intros s -> Hq Hctx.
  destruct (ret s) as [r|] eqn:Hr.
  - destruct (quiet_returned _ _ Hq Hr) as [-> Hw].
    exists [], s. done.
  - destruct (quiet_progress _ Hq Hctx Hr) as (a & s1 & Ha & Hs).
    assert (Hctx1 : ctx s1 = None).
    { by rewrite (step_ctx_keep _ _ _ _ _ _ Hs Ha). }
    destruct (quiet_step _ _ _ Hq Hs Hctx1) as [Hq1 Hmu].
    destruct (IH _ Hmu s1 eq_refl Hq1 Hctx1) as (sched' & s' & He & H').
    exists (a :: sched'), s'. simpl. rewrite Hs. done.
Qed.

Lemma quiet_prefix (s : State) :
  quiet_inv ops expected s → written s `prefix_of` expected.
Proof. intros [_ _ _ Hflow _ _ _ _]. by eexists. Qed.

End Quiet.

(** ** What the sink is given *)

Section Delivery.
Context {T : Type}.
Local Abbreviation Msg := (Message T).
Local Abbreviation State := (RunState T).

Local Arguments flow_in : simpl never.
Local Arguments chain_ok : simpl never.
Local Arguments mu_chain : simpl never.

Lemma quiet_init (p : Pipeline T) feed0 snk ctx0 s0 :
  source p = ChannelSource feed0 true → sink p = Some snk →
  buf (errChan p) = [] →
  Run_start p ctx0 = RunStarted s0 →
  quiet_inv (operators p)
    (Pipeline_output (operators p) (map ChannelSource_message feed0)) s0 ∧
  mu s0 = (length feed0 * (2 * length (operators p) + 3)
           + length (operators p) + 4)%nat.
Proof.
  intros Hsrc Hsnk Herr (snk' & c & t & _ & Hc & ->)%Run_start_started.
  rewrite Hsrc in Hc. injection Hc as <- <-.
  destruct (chain_init (map ChannelSource_message feed0) (operators p)
              (make_chan Msg 100)) as (H1 & H2 & H3); [done|simpl; lia|done|].
  split; [split|]; unfold init_state, src_up, written, mu; simpl;
    rewrite ?Hsrc; simpl; try done.
  - rewrite H2.
    assert (Hb : ∀ l : list nat, map EvProcess l ≫= written_of (T := T) = []).
    { induction l; simpl; done. }
    simpl in Hb. by rewrite Hb.
  - rewrite H3, length_replicate. lia.
Qed.

(** What a pipeline over the channel source delivers when its sink never
    fails and the context is not cancelled: at any moment a prefix of the
    operators' output on the wrapped feed; all of it, and a nil result,
    once [Run] has returned; [Run] has returned unless some goroutine can
    still move, no schedule is longer than the measure allows, and every
    schedule can be continued to the return of [Run]. *)
Lemma Run_delivers (p : Pipeline T) feed0 snk ctx0 s0 sched s :
  source p = ChannelSource feed0 true → sink p = Some snk →
  buf (errChan p) = [] →
  (∀ n m, sink_Write snk n m = None) → sink_Close snk = None →
  Run_start p ctx0 = RunStarted s0 →
  exec (source p) (operators p) snk sched s0 = Some s →
  ctx s = None →
  written s `prefix_of`
    Pipeline_output (operators p) (map ChannelSource_message feed0) ∧
  (∀ r, ret s = Some r →
        r = None ∧
        written s = Pipeline_output (operators p) (map ChannelSource_message feed0)) ∧
  (ret s = None →
   ∃ a s', is_cancel a = false ∧
           step (source p) (operators p) snk a s = Some s') ∧
  (length sched ≤ length feed0 * (2 * length (operators p) + 3)
                  + length (operators p) + 4)%nat ∧
  (∃ sched' s',
     exec (source p) (operators p) snk sched' s = Some s' ∧ ctx s' = None ∧
     ret s' = Some None ∧
     written s' = Pipeline_output (operators p) (map ChannelSource_message feed0)).
Proof.
  intros Hsrc Hsnk Herr Hw Hc Hstart Hexec Hctx.
  destruct (quiet_init _ _ _ _ _ Hsrc Hsnk Herr Hstart) as [Hq0 Hmu].
  rewrite Hsrc in *.
  destruct (quiet_exec _ _ _ _ Hw Hc _ _ _ Hq0 Hexec Hctx) as [Hq Hlen].
  split_and!.
  - by eapply quiet_prefix.
  - intros r Hr. by eapply quiet_returned.
  - intros Hr. by eapply quiet_progress.
  - lia.
  - by eapply quiet_completes.
Qed.

Lemma apply_all_Filter (p : T → bool) input :
  apply_all (FilterOperator p) (map ChannelSource_message input)
  = map ChannelSource_message (List.filter p input).
Proof.
  induction input as [|v input IH]; [done|].
  cbn [map]. rewrite apply_all_cons, IH. simpl. by destruct (p v).
Qed.

Lemma apply_all_Map (f : T → T) (l : list Msg) :
  apply_all (MapOperator f) l = map (λ m, set_Value (f (Value m)) m) l.
Proof.
  induction l as [|m l IH]; [done|].
  cbn [map]. by rewrite apply_all_cons, IH.
Qed.

Lemma Filter_Map_output (p : T → bool) (f : T → T) input :
  Pipeline_output [FilterOperator p; MapOperator f]
                  (map ChannelSource_message input)
  = map ChannelSource_message (map f (List.filter p input)).
Proof.
  unfold Pipeline_output. simpl. rewrite apply_all_Filter, apply_all_Map.
  rewrite <- !list_fmap_compose. done.
Qed.

Lemma Map_output (f : T → T) (l : list Msg) :
  Pipeline_output [MapOperator f] l = map (λ m, set_Value (f (Value m)) m) l.
Proof. apply apply_all_Map. Qed.

(** C1. A pipeline built as [Filter(p)] then [Map(f)] over a feed that
    is closed after its last value, run without cancellation into a sink
    that never fails: what the sink has been given is at every moment a
    prefix of [map f (filter p input)] (wrapped by the channel source),
    and is exactly that sequence once [Run] has returned, which it does
    with a nil error; until then some goroutine can always move, the
    run takes at most [7 * length input + 6] steps, and whatever has
    been scheduled it can be continued to the return of [Run]. *)
Theorem Filter_then_Map_delivers nm (input : list T) (p : T → bool) (f : T → T)
    (snk : Sink T) ctx0 s0 sched s :
  (∀ n m, sink_Write snk n m = None) → sink_Close snk = None →
  Run_start (To snk (Map f (Filter p (New nm (ChannelSource input true))))) ctx0
  = RunStarted s0 →
  exec (ChannelSource input true) [FilterOperator p; MapOperator f] snk sched s0
  = Some s →
  ctx s = None →
  written s `prefix_of` map ChannelSource_message (map f (List.filter p input)) ∧
  (∀ r, ret s = Some r →
        r = None ∧
        written s = map ChannelSource_message (map f (List.filter p input)) ∧
        map Value (written s) = map f (List.filter p input)) ∧
  (ret s = None →
   ∃ a s', is_cancel a = false ∧
           step (ChannelSource input true) [FilterOperator p; MapOperator f]
                snk a s = Some s') ∧
  (length sched ≤ 7 * length input + 6)%nat ∧
  (∃ sched' s',
     exec (ChannelSource input true) [FilterOperator p; MapOperator f] snk
          sched' s = Some s' ∧
     ctx s' = None ∧ ret s' = Some None ∧
     map Value (written s') = map f (List.filter p input)).
Proof.
  intros Hw Hc Hstart Hexec Hctx.
  assert (Hv : map Value (map ChannelSource_message (map f (List.filter p input)))
               = map f (List.filter p input)).
  { rewrite <- list_fmap_compose. by rewrite list_fmap_id. }
  destruct (Run_delivers (To snk (Map f (Filter p (New nm (ChannelSource input true)))))
              input snk _ _ _ _ eq_refl eq_refl eq_refl Hw Hc
              Hstart Hexec Hctx) as (H1 & H2 & H3 & H4 & H5).
  change (operators _) with [FilterOperator p; MapOperator f] in H1, H2, H3, H4, H5.
  change (source _) with (ChannelSource input true) in H3, H5.
  rewrite Filter_Map_output in H1, H2, H5. simpl in H4.
  split_and!; try done.
  - intros r Hr. destruct (H2 r Hr) as [-> ->]. done.
  - lia.
  - destruct H5 as (sched' & s' & He & Hc' & Hr' & Hw').
    exists sched', s'. by rewrite Hw'.
Qed.

(** C7. The map operator on one envelope: the envelope it sends on has
    [fn] applied to the value and the key, timestamp and metadata of the
    one received, and its forwarder, wherever it stands in a pipeline,
    takes that one envelope to its send for each envelope it receives
    while the context is not done; and on a run: a pipeline of one
    [Map(fn)] over the
    channel source, not cancelled, its sink never failing, has given the
    sink, when [Run] returns, one envelope per value of the feed, in
    order, each the source's envelope with [fn] applied to its value;
    and the run can always be continued to that return. *)
Theorem Map_replaces_value_only nm (input : list T) (fn : T → T)
    (snk : Sink T) ctx0 s0 sched s :
  (∀ n m, sink_Write snk n m = None) → sink_Close snk = None →
  Run_start (To snk (Map fn (New nm (ChannelSource input true)))) ctx0
  = RunStarted s0 →
  exec (ChannelSource input true) [MapOperator fn] snk sched s0 = Some s →
  ctx s = None →
  (∀ m, ∃ m', Operator_apply (MapOperator fn) m = Some m' ∧
              Value m' = fn (Value m) ∧ Key m' = Key m ∧
              Timestamp m' = Timestamp m ∧ Metadata m' = Metadata m) ∧
  (∀ src ops i (t : State) c m rest,
     ops !! i = Some (MapOperator fn) → op_tasks t !! i = Some ORecv →
     chans t !! i = Some c → buf c = m :: rest →
     ctx t = None → src_task t ≠ SPanic →
     step src ops snk (OpRecv i) t
     = Some (set_op_task i (OSend (set_Value (fn (Value m)) m))
                         (upd_chan i chan_pop t))) ∧
  (∀ r, ret s = Some r →
        written s = map (λ m, set_Value (fn (Value m)) m)
                        (map ChannelSource_message input) ∧
        length (written s) = length input) ∧
  (∃ sched' s',
     exec (ChannelSource input true) [MapOperator fn] snk sched' s = Some s' ∧
     ctx s' = None ∧ ret s' = Some None ∧
     written s' = map (λ m, set_Value (fn (Value m)) m)
                      (map ChannelSource_message input)).
Proof.
  intros Hw Hc Hstart Hexec Hctx.
  destruct (Run_delivers (To snk (Map fn (New nm (ChannelSource input true))))
              input snk _ _ _ _ eq_refl eq_refl eq_refl Hw Hc
              Hstart Hexec Hctx) as (H1 & H2 & H3 & H4 & H5).
  change (operators _) with [MapOperator fn] in H1, H2, H3, H4, H5.
  change (source _) with (ChannelSource input true) in H3, H5.
  rewrite Map_output in H2, H5.
  split_and!; try done.
  - intros m. eexists. split; [reflexivity|]. done.
  - intros src ops i t c m rest Hop Ht Hch Hb Hcx Hsrc.
    rewrite step_live by done. simpl. unfold step_op, cancelled.
    rewrite Hop, Ht, Hch. simpl. by rewrite Hb, Hcx.
  - intros r Hr. destruct (H2 r Hr) as [_ ->]. split; [done|].
    by rewrite !length_map.
Qed.

End Delivery.

(** ** The outcome of [Run] *)

Section Outcomes.
Context {T : Type}.
Local Abbreviation Msg := (Message T).
Local Abbreviation State := (RunState T).

Lemma init_calls (p : Pipeline T) ctx0 c t :
  close_calls (init_state p ctx0 c t) = [] ∧
  write_errors (init_state p ctx0 c t) = [] ∧
  written (init_state p ctx0 c t) = [].
Proof.
  unfold close_calls, write_errors, written, init_state. simpl.
  generalize 0%nat. induction (length (operators p)) as [|n IH]; intros k; [done|].
  simpl. apply IH.
Qed.

(** the invariants of the outcome hold in every state of a run *)
Lemma outcome_inv (p : Pipeline T) snk ctx0 s0 sched s :
  buf (errChan p) = [] →
  Run_start p ctx0 = RunStarted s0 →
  exec (source p) (operators p) snk sched s0 = Some s →
  errs_inv s ∧ (ret s = None → close_calls s = []) ∧
  cap (errs s) = cap (errChan p).
Proof.
  intros Herr (snk' & c & t & _ & _ & ->)%Run_start_started He.
  eapply (exec_inv _ _ _
            (λ s, errs_inv s ∧ (ret s = None → close_calls s = []) ∧
                  cap (errs s) = cap (errChan p))); [| |exact He].
  - intros a s1 s2 (H1 & H2 & H3) Hs. split_and!.
    + by eapply step_errs_inv.
    + by eapply step_no_close.
    + erewrite step_errs_cap; eauto.
  - destruct (init_calls p ctx0 c t) as (H1 & H2 & H3). split_and!; try done.
    intros _. unfold errs_sent. rewrite H2. simpl. by rewrite Herr.
Qed.

Lemma run_no_close (p : Pipeline T) snk ctx0 s0 sched s :
  Run_start p ctx0 = RunStarted s0 →
  exec (source p) (operators p) snk sched s0 = Some s →
  ret s = None → close_calls s = [].
Proof.
  intros (snk' & c & t & _ & _ & ->)%Run_start_started He.
  eapply (exec_inv _ _ _ (λ s, ret s = None → close_calls s = []));
    [| |exact He].
  - intros a s1 s2 H1 Hs. by eapply step_no_close.
  - by destruct (init_calls p ctx0 c t) as (H1 & _).
Qed.



End Outcomes.

(** ** The envelopes of a run *)

Section Messages.
Context {T : Type}.
Local Abbreviation Msg := (Message T).
Local Abbreviation State := (RunState T).
Variable src : Source T.
Variable ops : list (Operator T).
Variable snk : Sink T.

Variable P : Msg → Prop.
Hypothesis P_source : source_makes src P.
Hypothesis P_apply :
  ∀ (op : Operator T) (m m' : Msg), Operator_apply op m = Some m' → P m → P m'.

Lemma Operator_apply_Metadata (op : Operator T) (m m' : Msg) :
  Operator_apply op m = Some m' → Metadata m' = Metadata m.
Proof.
  destruct op as [fn|fn]; simpl.
  - by intros [= <-].
  - destruct (fn (Value m)); [|done]. by intros [= <-].
Qed.

Lemma HTTPSource_poll_Metadata url parser o now (m : Msg) :
  HTTPSource_poll url parser o now = Some m → Metadata m ≠ None.
Proof.
  unfold HTTPSource_poll. intros H. repeat case_match; simplify_eq. done.
Qed.

Lemma Forall_buf_pop cs i :
  Forall (λ c, Forall P (buf c)) cs →
  Forall (λ c, Forall P (buf c)) (alter chan_pop i cs).
Proof. intros H. apply Forall_alter; [done|]. intros c _. apply Forall_tail. Qed.

Lemma Forall_buf_close cs i :
  Forall (λ c, Forall P (buf c)) cs →
  Forall (λ c, Forall P (buf c)) (alter chan_close i cs).
Proof. intros H. apply Forall_alter; [done|]. by intros c _. Qed.

Lemma Forall_buf_push cs i m :
  P m → Forall (λ c, Forall P (buf c)) cs →
  Forall (λ c, Forall P (buf c)) (alter (chan_push m) i cs).
Proof.
  intros Hm H. apply Forall_alter; [done|]. intros c _ Hc. simpl.
  apply Forall_app. split; [done|]. by apply Forall_singleton.
Qed.

Lemma Forall_buf_head cs i c m rest :
  Forall (λ c, Forall P (buf c)) cs → cs !! i = Some c → buf c = m :: rest →
  P m.
Proof.
  intros H Hc Hb. pose proof (Forall_lookup_1 _ _ _ _ H Hc) as Hpc.
  simpl in Hpc. rewrite Hb in Hpc. by apply Forall_cons in Hpc as [? _].
Qed.

Lemma step_all_messages a (s s' : State) :
  all_messages P s →
  step src ops snk a s = Some s' →
  all_messages P s'.
Proof.
  intros [H1 H2 H3 H4] [_ H]%step_dispatch. destruct s. simpl in *.
  unfold source_makes in P_source.
  destruct a; step_cases H; try done.
  all: split; unfold upd_chan, set_op_task, op_exit, src_exit, written in *; simpl;
    rewrite ?bind_app; simpl; rewrite ?app_nil_r;
    eauto using Forall_buf_pop, Forall_buf_close, Forall_insert, Forall_nil_2.
  all: repeat match goal with
    | |- Forall _ (_ ++ [_]) => apply Forall_app; split; [done|]
    | |- Forall _ (alter (chan_push _) _ _) => apply Forall_buf_push; [|done]
    | |- Forall _ (<[_:=_]> _) => apply Forall_insert; [done|]
    | |- Forall _ (held_src (after_poll ?r)) =>
        let E := fresh in destruct r eqn:E; simpl; [|constructor]
    | |- Forall _ (held_op (after_apply ?r)) =>
        let E := fresh in destruct r eqn:E; simpl; [|constructor]
    | |- Forall _ [_] => apply Forall_singleton
    end.
  all: try done.
  all: try (by eapply P_source).
  all: try (by eapply Forall_buf_head).
  all: try (by inversion H1).
  all: try (eapply P_apply; [done|]; by eapply Forall_buf_head).
  all: try (apply (Forall_lookup_1 _ _ _ _ H3) in Heqo; by inversion Heqo).
Qed.

Lemma init_all_messages (p : Pipeline T) ctx0 c t :
  buf c = [] → held_src t = [] →
  all_messages P (init_state p ctx0 c t).
Proof.
  intros Hc Ht. destruct (init_calls p ctx0 c t) as (_ & _ & Hw).
  split; simpl; rewrite ?Ht, ?Hw; try done.
  - constructor; [by rewrite Hc|]. by apply Forall_replicate.
  - by apply Forall_replicate.
Qed.

End Messages.

Section Sources.
Context {T : Type}.
Local Abbreviation Msg := (Message T).
Local Abbreviation State := (RunState T).

Lemma Source_Stream_fresh (src : Source T) c t :
  Source_Stream src = inr (c, t) →
  buf c = [] ∧ held_src t = [] ∧ closed c = false.
Proof.
  destruct src as [interval g|url interval parser|fd cl|[e|] ce n]; simpl;
    try case_bool_decide; intros; by simplify_eq.
Qed.

Lemma run_all_messages (P : Msg → Prop) (p : Pipeline T) snk ctx0 s0 sched s :
  source_makes (source p) P →
  (∀ (op : Operator T) (m m' : Msg), Operator_apply op m = Some m' → P m → P m') →
  Run_start p ctx0 = RunStarted s0 →
  exec (source p) (operators p) snk sched s0 = Some s →
  all_messages P s.
Proof.
  intros HP Hop (snk' & c & t & _ & Hc & ->)%Run_start_started He.
  destruct (Source_Stream_fresh _ _ _ Hc) as (Hb & Ht & _).
  eapply (exec_inv _ _ _ (all_messages P)); [| |exact He].
  - intros a s1 s2 H1 Hs. by eapply step_all_messages.
  - by apply init_all_messages.
Qed.

(** C8. Every envelope of a run over one of the shipped sources (timer,
    HTTP poll, channel adapter) has an allocated metadata map, wherever
    it is: held by the producer, queued on a channel, held by a
    forwarder, or handed to the sink. Map and Filter pass the metadata
    of an envelope on as it is. *)
Theorem metadata_never_nil (p : Pipeline T) snk ctx0 s0 sched s :
  shipped (source p) = true →
  sink p = Some snk →
  Run_start p ctx0 = RunStarted s0 →
  exec (source p) (operators p) snk sched s0 = Some s →
  all_messages (λ m : Msg, Metadata m ≠ None) s ∧
  (∀ (op : Operator T) (m m' : Msg),
     Operator_apply op m = Some m' → Metadata m' = Metadata m).
Proof.
  intros Hsh Hsnk Hstart He.
  split; [|apply Operator_apply_Metadata].
  eapply run_all_messages; [| |done..].
  - destruct (source p); simpl; try done.
    intros o now m. apply HTTPSource_poll_Metadata.
  - intros op m m' ->%Operator_apply_Metadata. done.
Qed.

(** C10. In a run over the channel source every envelope the producer
    holds or has put on its channel has an empty key, timestamp zero,
    and an allocated, empty metadata map; and so has every envelope
    further down the pipeline, up to the sink. The envelopes of the
    timer and HTTP poll sources carry the time read when they are built. *)
Theorem ChannelSource_envelopes (p : Pipeline T) fd cl snk ctx0 s0 sched s :
  source p = ChannelSource fd cl →
  sink p = Some snk →
  Run_start p ctx0 = RunStarted s0 →
  exec (source p) (operators p) snk sched s0 = Some s →
  all_messages
    (λ m : Msg, Key m = "" ∧ Timestamp m = 0 ∧ Metadata m = Some ∅) s ∧
  (∀ (generator : nat → T) n now1 now2,
     Timestamp (CronSource_message generator n now1 now2) = now2) ∧
  (∀ url (parser : list Byte.byte → T + error) o now m,
     HTTPSource_poll url parser o now = Some m → Timestamp m = now).
Proof.
  intros Hsrc Hsnk Hstart He. split_and!; [|done|].
  2:{ intros url parser o now m H. unfold HTTPSource_poll in H.
      repeat case_match; by simplify_eq. }
  eapply run_all_messages; [| |done..].
  - rewrite Hsrc. simpl. done.
  - intros [fn|fn] m m'; simpl.
    + by intros [= <-].
    + destruct (fn (Value m)); [|done]. by intros [= <-].
Qed.

End Sources.

(** ** The order of the envelopes, in every run *)

Section LiveLemmas.
Context {T : Type}.
Local Abbreviation Msg := (Message T).
Local Abbreviation State := (RunState T).

Local Arguments flow_live : simpl never.

Lemma flow_live_cons (up : list Msg) op ops t ts c cs :
  flow_live up (op :: ops) (t :: ts) (c :: cs)
  = flow_live (stage_out op t c up) ops ts cs.
Proof. done. Qed.

Lemma flow_live_last (up : list Msg) c cs :
  flow_live up [] [] (c :: cs) = buf c ++ up.
Proof. done. Qed.

Lemma apply_all_app (op : Operator T) (l1 l2 : list Msg) :
  apply_all op (l1 ++ l2) = apply_all op l1 ++ apply_all op l2.
Proof. unfold apply_all. apply omap_app. Qed.

Lemma stage_out_mono (op : Operator T) t c (u1 u2 : list Msg) :
  u1 `prefix_of` u2 → stage_out op t c u1 `prefix_of` stage_out op t c u2.
Proof.
  intros [k ->]. unfold stage_out. destruct (op_exited t); [done|].
  apply prefix_app. rewrite (app_assoc (buf c)), (apply_all_app _ (buf c ++ u1)).
  by apply prefix_app_r.
Qed.

Lemma flow_live_mono (u1 u2 : list Msg) ops ts cs :
  u1 `prefix_of` u2 → flow_live u1 ops ts cs `prefix_of` flow_live u2 ops ts cs.
Proof.
  revert u1 u2 ops ts. induction cs as [|c cs IH]; intros u1 u2 ops ts Hu; [done|].
  destruct ops as [|op ops], ts as [|t ts];
    try (unfold flow_live; by apply prefix_app).
  rewrite !flow_live_cons. apply IH. by apply stage_out_mono.
Qed.

Lemma flow_live_stage i (u1 u2 : list Msg) ops ts cs op t c t' g :
  ops !! i = Some op → ts !! i = Some t → cs !! i = Some c →
  (∀ v1 v2, v1 `prefix_of` v2 →
            stage_out op t' (g c) v1 `prefix_of` stage_out op t c v2) →
  u1 `prefix_of` u2 →
  flow_live u1 ops (<[i := t']> ts) (alter g i cs) `prefix_of` flow_live u2 ops ts cs.
Proof.
  revert i u1 u2 ops ts.
  induction cs as [|c0 cs IH]; intros i u1 u2 ops ts Hop Ht Hc Hst Hu; [done|].
  destruct ops as [|op0 ops]; [done|]. destruct ts as [|t0 ts]; [done|].
  destruct i as [|i].
  - simpl in Hop, Ht, Hc. simplify_eq.
    change (flow_live u1 (op :: ops) (t' :: ts) (g c :: cs)
            `prefix_of` flow_live u2 (op :: ops) (t :: ts) (c :: cs)).
    rewrite !flow_live_cons.
    etrans; [apply flow_live_mono, Hst, Hu|done].
  - change (flow_live u1 (op0 :: ops) (t0 :: <[i := t']> ts) (c0 :: alter g i cs)
            `prefix_of` flow_live u2 (op0 :: ops) (t0 :: ts) (c0 :: cs)).
    rewrite !flow_live_cons. apply IH; try done. by apply stage_out_mono.
Qed.

Lemma flow_live_push (up : list Msg) ops ts c cs m :
  flow_live up ops ts (chan_push m c :: cs) = flow_live (m :: up) ops ts (c :: cs).
Proof.
  destruct ops as [|op ops], ts as [|t ts];
    try (unfold flow_live; simpl; by rewrite <- app_assoc).
  rewrite !flow_live_cons. unfold stage_out. simpl. by rewrite <- app_assoc.
Qed.

Lemma flow_live_send i (up : list Msg) ops ts cs m op c1 :
  ops !! i = Some op → ts !! i = Some (OSend m) → cs !! S i = Some c1 →
  flow_live up ops (<[i := ORecv]> ts) (alter (chan_push m) (S i) cs)
  = flow_live up ops ts cs.
Proof.
  revert i up ops ts.
  induction cs as [|c0 cs IH]; intros i up ops ts Hop Ht Hc; [done|].
  destruct ts as [|t0 ts]; [done|]. destruct ops as [|op0 ops]; [done|].
  destruct i as [|i].
  - simpl in Ht, Hc. simplify_eq. destruct cs as [|c1' cs]; [done|].
    simpl in Hc. simplify_eq.
    change (flow_live up (op0 :: ops) (ORecv :: ts) (c0 :: chan_push m c1 :: cs)
            = flow_live up (op0 :: ops) (OSend m :: ts) (c0 :: c1 :: cs)).
    rewrite !flow_live_cons, flow_live_push. done.
  - change (flow_live up (op0 :: ops) (t0 :: <[i := ORecv]> ts)
                      (c0 :: alter (chan_push m) (S i) cs)
            = flow_live up (op0 :: ops) (t0 :: ts) (c0 :: cs)).
    rewrite !flow_live_cons. by eapply IH.
Qed.

Lemma flow_live_consume (up : list Msg) ops ts cs c m rest :
  length ts = length ops →
  cs !! length ops = Some c → buf c = m :: rest →
  flow_live up ops ts cs
  = m :: flow_live up ops ts (alter chan_pop (length ops) cs).
Proof.
  revert up ops ts.
  induction cs as [|c0 cs IH]; intros up ops ts Hl Hc Hb; [done|].
  destruct ops as [|op0 ops], ts as [|t0 ts]; try done.
  - simpl in Hc. simplify_eq.
    change (flow_live up [] [] (c :: cs) = m :: flow_live up [] [] (chan_pop c :: cs)).
    rewrite !flow_live_last. simpl. by rewrite Hb.
  - simpl in Hl, Hc.
    change (flow_live up (op0 :: ops) (t0 :: ts) (c0 :: cs)
            = m :: flow_live up (op0 :: ops) (t0 :: ts)
                     (c0 :: alter chan_pop (length ops) cs)).
    rewrite !flow_live_cons. apply IH; [lia|done..].
Qed.

Lemma flow_live_ext (up : list Msg) ops ts cs cs' :
  map buf cs = map buf cs' →
  flow_live up ops ts cs = flow_live up ops ts cs'.
Proof.
  revert up ops ts cs'.
  induction cs as [|c cs IH]; intros up ops ts [|c' cs'] [=]; [done|].
  destruct ops as [|op ops], ts as [|t ts];
    try (unfold flow_live; simpl; congruence).
  rewrite !flow_live_cons. unfold stage_out. rewrite H0. by apply IH.
Qed.

Lemma map_buf_close j (cs : list (chan Msg)) :
  map buf (alter chan_close j cs) = map buf cs.
Proof.
  revert j. induction cs as [|c cs IH]; intros [|j]; try done.
  simpl. f_equal. apply IH.
Qed.

Lemma flow_live_close j (up : list Msg) ops ts cs :
  flow_live up ops ts (alter chan_close j cs) = flow_live up ops ts cs.
Proof. apply flow_live_ext, map_buf_close. Qed.

(** a forwarder returns, whatever it holds and whatever it has taken off
    its input *)
Lemma flow_live_exit i (u1 u2 : list Msg) ops ts cs cs' g :
  length ts = length ops → length cs = S (length ops) →
  (i < length ts)%nat →
  cs' = alter g i cs →
  u1 `prefix_of` u2 →
  flow_live u1 ops (<[i := OExit]> ts) (alter chan_close (S i) cs')
  `prefix_of` flow_live u2 ops ts cs.
Proof.
  intros Hl1 Hl2 Hi -> Hu. rewrite flow_live_close.
  destruct (lookup_lt_is_Some_2 ts i Hi) as [t Ht].
  destruct (lookup_lt_is_Some_2 ops i ltac:(lia)) as [op Hop].
  destruct (lookup_lt_is_Some_2 cs i ltac:(lia)) as [c Hc].
  eapply flow_live_stage; try done.
  intros v1 v2 _. unfold stage_out at 1. simpl. apply prefix_nil.
Qed.

Lemma stage_out_recv (op : Operator T) c m rest (v1 v2 : list Msg) :
  buf c = m :: rest → v1 `prefix_of` v2 →
  stage_out op (after_apply (Operator_apply op m)) (chan_pop c) v1
  `prefix_of` stage_out op ORecv c v2.
Proof.
  intros Hb [k ->]. unfold stage_out. rewrite op_exited_after_apply.
  change (buf (chan_pop c)) with (tail (buf c)). rewrite Hb.
  cbn [op_exited held_op tail]. rewrite app_nil_l, <- app_comm_cons, apply_all_cons.
  apply prefix_app.
  rewrite (app_assoc rest), (apply_all_app _ (rest ++ v1)). by apply prefix_app_r.
Qed.

Lemma shape_step src ops snk a (s s' : State) :
  shape_ok ops s → step src ops snk a s = Some s' → shape_ok ops s'.
Proof.
  intros [H1 H2] H. destruct s. unfold shape_ok in *. simpl in *.
  destruct a; step_cases H; try done;
    unfold upd_chan, set_op_task, op_exit, src_exit; simpl;
    by rewrite ?length_insert, ?length_alter.
Qed.

Section Live.
Variable fd0 : list T.
Variable cl : bool.
Variable ops : list (Operator T).
Variable snk : Sink T.

Ltac live_goal :=
  unfold to_come, src_live, src_up, written, upd_chan, set_op_task, op_exit,
    src_exit; simpl.

Lemma live_step_src a (s s' : State) :
  match a with
  | SrcTick _ _ | SrcPoll _ _ | SrcRecv | SrcEmit _ | SrcStop | SrcSend | SrcDone => True
  | _ => False
  end →
  shape_ok ops s →
  dispatch (ChannelSource fd0 cl) ops snk a s = Some s' →
  written s' ++ to_come ops s' `prefix_of` written s ++ to_come ops s.
Proof.
  intros Ha [Hl1 Hl2] H.
  destruct s as [cx fd gen st cs ts cons ers dn rt cls]. simpl in *.
  destruct a; try done; clear Ha; simpl in H; unfold step_src, cancelled in H;
    simpl in H; destruct st as [| |m| |]; try done.
  - (* SrcRecv *)
    destruct fd as [|v rest].
    + destruct cl; [|done]. injection H as <-. live_goal.
      apply prefix_app. destruct cons; try done; by rewrite flow_live_close.
    + injection H as <-. live_goal. done.
  - (* SrcSend *)
    destruct cs as [|c cs]; [done|]. simpl in H.
    destruct (has_room c); [|done]. injection H as <-. live_goal.
    apply prefix_app. destruct cons; try done;
      change (alter (chan_push m) 0%nat (c :: cs)) with (chan_push m c :: cs);
      by rewrite flow_live_push.
  - (* SrcDone, waiting *)
    destruct cx; [|done]. injection H as <-. live_goal.
    apply prefix_app. destruct cons; try done;
      rewrite flow_live_close; apply flow_live_mono, prefix_nil.
  - (* SrcDone, sending *)
    destruct cx; [|done]. injection H as <-. live_goal.
    apply prefix_app. destruct cons; try done;
      rewrite flow_live_close; apply flow_live_mono, prefix_nil.
Qed.

Lemma live_step_op a (s s' : State) :
  match a with OpRecv _ | OpSend _ | OpDone _ => True | _ => False end →
  shape_ok ops s →
  dispatch (ChannelSource fd0 cl) ops snk a s = Some s' →
  written s' ++ to_come ops s' `prefix_of` written s ++ to_come ops s.
Proof.
  intros Ha [Hl1 Hl2] H.
  destruct s as [cx fd gen st cs ts cons ers dn rt cls]. simpl in *.
  destruct a; try done; clear Ha; simpl in H; unfold step_op, cancelled in H;
    simpl in H.
  - (* OpRecv *)
    destruct (ops !! i) as [op|] eqn:Hop; [|done].
    destruct (ts !! i) as [t|] eqn:Ht; [|done].
    destruct (cs !! i) as [c|] eqn:Hc; [|done]. simpl in H.
    pose proof (lookup_lt_Some _ _ _ Ht) as Hi.
    destruct t; try done.
    destruct (buf c) as [|m rest] eqn:Hb.
    + destruct (closed c) eqn:Hcl; [|done]. injection H as <-. live_goal.
      apply prefix_app. destruct cons; try done;
        (eapply (flow_live_exit i _ _ _ _ _ _ id); try done;
         symmetry; by apply list_alter_id).
    + destruct cx.
      * injection H as <-. live_goal.
        apply prefix_app. destruct cons; try done;
          by eapply (flow_live_exit i _ _ _ _ _ _ chan_pop).
      * injection H as <-. live_goal.
        apply prefix_app. destruct cons; try done;
          (eapply flow_live_stage; try done; intros v1 v2 Hv;
           by eapply stage_out_recv).
  - (* OpSend *)
    destruct (ts !! i) as [t|] eqn:Ht; [|done].
    destruct (cs !! S i) as [c|] eqn:Hc; [|done]. simpl in H.
    pose proof (lookup_lt_Some _ _ _ Ht) as Hi.
    destruct (lookup_lt_is_Some_2 ops i ltac:(lia)) as [op Hop].
    destruct t as [|m|]; try done.
    destruct (has_room c); [|done]. injection H as <-. live_goal.
    apply prefix_app. destruct cons; try done;
      by erewrite flow_live_send.
  - (* OpDone *)
    destruct (ts !! i) as [t|] eqn:Ht; [|done]. simpl in H.
    pose proof (lookup_lt_Some _ _ _ Ht) as Hi.
    destruct t; try done. destruct cx; [|done]. injection H as <-. live_goal.
    apply prefix_app. destruct cons; try done;
      (eapply (flow_live_exit i _ _ _ _ _ _ id); try done;
       symmetry; by apply list_alter_id).
Qed.

Lemma live_step_sink a (s s' : State) :
  match a with Consume | ConsErrSend | ConsDone | Wait => True | _ => False end →
  shape_ok ops s →
  dispatch (ChannelSource fd0 cl) ops snk a s = Some s' →
  written s' ++ to_come ops s' `prefix_of` written s ++ to_come ops s.
Proof.
  intros Ha [Hl1 Hl2] H.
  destruct s as [cx fd gen st cs ts cons ers dn rt cls]. simpl in *.
  destruct a; try done; clear Ha; simpl in H; unfold step_sink, cancelled in H;
    simpl in H; destruct cons as [|e|]; try done.
  - (* Consume *)
    destruct (cs !! length ops) as [c|] eqn:Hc; [|done]. simpl in H.
    destruct (buf c) as [|m rest] eqn:Hb.
    + destruct (closed c) eqn:Hcl; [|done]. injection H as <-. live_goal.
      apply prefix_app, prefix_nil.
    + destruct (sink_Write snk _ m); injection H as <-; live_goal;
        rewrite (flow_live_consume _ _ _ _ _ _ _ Hl1 Hc Hb);
        rewrite bind_app; simpl; by rewrite <- app_assoc.
  - (* ConsErrSend *)
    destruct (has_room ers); [|done]. by injection H as <-.
  - (* ConsDone *)
    destruct cx; [|done]. injection H as <-. live_goal. apply prefix_app, prefix_nil.
  - (* Wait *)
    destruct dn; [done|]. by injection H as <-.
Qed.

Lemma live_step_driver a (s s' : State) :
  match a with DriverDone | DriverCancel | DriverErr => True | _ => False end →
  dispatch (ChannelSource fd0 cl) ops snk a s = Some s' →
  written s' ++ to_come ops s' `prefix_of` written s ++ to_come ops s.
Proof.
  intros Ha H.
  destruct s as [cx fd gen st cs ts cons ers dn rt cls]. simpl in *.
  destruct a; try done; clear Ha; simpl in H;
    unfold step_driver, Run_finish in H; simpl in H;
    destruct rt; try done.
  - destruct dn; [|done]. destruct (sink_Close snk); injection H as <-;
      live_goal; rewrite ?bind_app; simpl; by rewrite ?app_nil_r.
  - destruct cx; [|done]. by injection H as <-.
  - destruct (buf ers); [done|]. by injection H as <-.
Qed.

(** No step adds to what the sink can still be given, except by giving
    it: what has been written followed by what can still come only
    loses messages from its end. *)
Lemma live_step a (s s' : State) :
  shape_ok ops s →
  step (ChannelSource fd0 cl) ops snk a s = Some s' →
  written s' ++ to_come ops s' `prefix_of` written s ++ to_come ops s.
Proof.
  intros Hsh [_ Hs]%step_dispatch.
  destruct a;
    first [ refine (live_step_src _ _ _ _ Hsh Hs); exact I
          | refine (live_step_op _ _ _ _ Hsh Hs); exact I
          | refine (live_step_sink _ _ _ _ Hsh Hs); exact I
          | refine (live_step_driver _ _ _ _ Hs); exact I
          | idtac ].
  simpl in Hs. destruct (ctx s); [done|]. by injection Hs as <-.
Qed.

Lemma live_exec sched (s0 s : State) :
  shape_ok ops s0 →
  exec (ChannelSource fd0 cl) ops snk sched s0 = Some s →
  shape_ok ops s ∧
  written s ++ to_come ops s `prefix_of` written s0 ++ to_come ops s0.
Proof.
  revert s0. induction sched as [|a sched IH]; intros s0 Hsh; simpl.
  - by intros [= ->].
  - destruct (step (ChannelSource fd0 cl) ops snk a s0) as [s1|] eqn:Hs; [|done].
    simpl. intros He.
    destruct (IH _ (shape_step _ _ _ _ _ _ Hsh Hs) He) as [H1 H2].
    split; [done|]. etrans; [exact H2|]. by eapply live_step.
Qed.

End Live.

End LiveLemmas.

(** ** Channels and goroutines, in every run; shutdown *)

Section LinkLemmas.
Context {T : Type}.
Local Abbreviation Msg := (Message T).
Local Abbreviation State := (RunState T).

Lemma links_alter (st : SrcTask T) ts cs g k :
  (∀ c : chan Msg, closed (g c) = closed c) →
  links st ts cs → links st ts (alter g k cs).
Proof.
  intros Hg H j c. rewrite list_lookup_alter. case_decide.
  - subst. destruct (cs !! j) as [c'|] eqn:E; [|done]. simpl. intros [= <-].
    rewrite Hg. by apply H.
  - apply H.
Qed.

Lemma links_task (st : SrcTask T) ts cs i t t' :
  ts !! i = Some t → op_exited t' = op_exited t →
  links st ts cs → links st (<[i := t']> ts) cs.
Proof.
  intros Ht He H j c Hc. rewrite (H j c Hc). destruct j as [|k]; [done|]. simpl.
  rewrite list_lookup_insert. case_decide as Hd; [|done].
  destruct Hd as [-> _]. rewrite Ht. simpl. by rewrite He.
Qed.

Lemma links_op_exit (st : SrcTask T) ts cs i :
  (i < length ts)%nat →
  links st ts cs → links st (<[i := OExit]> ts) (alter chan_close (S i) cs).
Proof.
  intros Hi H j c. rewrite list_lookup_alter. case_decide as Hd.
  - subst. destruct (cs !! S i) as [c'|] eqn:E; [|done]. simpl. intros [= <-].
    simpl. by rewrite list_lookup_insert_eq.
  - intros Hc. rewrite (H j c Hc). destruct j as [|k]; [done|]. simpl.
    rewrite list_lookup_insert_ne; [done|congruence].
Qed.

Lemma links_src_exit (st : SrcTask T) ts cs :
  links st ts cs → links SExit ts (alter chan_close 0%nat cs).
Proof.
  intros H j c. rewrite list_lookup_alter. case_decide as Hd.
  - subst. destruct (cs !! 0%nat) as [c'|] eqn:E; [|done]. by intros [= <-].
  - intros Hc. rewrite (H j c Hc). by destruct j.
Qed.

Lemma links_src (st st' : SrcTask T) ts cs :
  src_exited st' = src_exited st →
  links st ts cs → links st' ts cs.
Proof. intros He H j c Hc. rewrite (H j c Hc). by destruct j. Qed.

Lemma bounded_pop (cs : list (chan Msg)) k :
  Forall chan_bounded cs → Forall chan_bounded (alter chan_pop k cs).
Proof.
  intros H. apply Forall_alter; [done|]. intros c _. unfold chan_bounded. simpl.
  destruct (buf c); simpl; lia.
Qed.

Lemma bounded_close (cs : list (chan Msg)) k :
  Forall chan_bounded cs → Forall chan_bounded (alter chan_close k cs).
Proof. intros H. apply Forall_alter; [done|]. by intros c _. Qed.

Lemma bounded_push (cs : list (chan Msg)) k c m :
  cs !! k = Some c → has_room c = true →
  Forall chan_bounded cs → Forall chan_bounded (alter (chan_push m) k cs).
Proof.
  intros Hc Hr H. apply Forall_alter; [done|]. intros c' Hc' _.
  rewrite Hc in Hc'. injection Hc' as <-.
  unfold chan_bounded, has_room in *. simpl. rewrite length_app. simpl.
  apply bool_decide_eq_true_1 in Hr. lia.
Qed.

Lemma step_run_inv src ops snk a (s s' : State) :
  run_inv ops s → step src ops snk a s = Some s' → run_inv ops s'.
Proof.
  intros [H1 H2 H3 H4 H5 H6 H7] H. destruct s. simpl in *.
  destruct a; step_cases H; try done.
  all: unfold upd_chan, set_op_task, op_exit, src_exit; split; simpl;
    rewrite ?length_insert, ?length_alter; try done.
  all: eauto using bounded_pop, bounded_close, bounded_push.
  all: try match goal with
    | |- chan_bounded _ =>
        unfold chan_bounded, has_room in *; simpl; rewrite ?length_app; simpl;
        try match goal with H : bool_decide _ = true |- _ =>
              apply bool_decide_eq_true_1 in H end;
        try match goal with |- context [tail ?l] => destruct l; simpl in * end;
        lia
    end.
  all: try (intros Hd; by specialize (H7 Hd)).
  all: try match goal with |- links (after_poll ?r) _ _ => destruct r end.
  all: repeat first
    [ eapply links_src_exit; eassumption
    | apply links_op_exit; [by eapply lookup_lt_Some|]
    | apply links_alter; [done|]
    | eapply links_task; [eassumption|by rewrite ?op_exited_after_apply|]
    | eapply links_src; [|eassumption]; done ].
  all: try done.
Qed.

Lemma step_src_ok src ops snk a (s s' : State) :
  positive_interval src → src_ok src (src_task s) →
  step src ops snk a s = Some s' → src_ok src (src_task s').
Proof.
  intros Hp Hok H. destruct s. simpl in *.
  destruct a; step_cases H; try done.
  all: try match goal with |- src_ok _ (after_poll ?r) => by destruct r end.
  simpl in Hp. lia.
Qed.

(** what has returned stays returned, and a context that is done stays
    done *)
Lemma step_stable src ops snk a (s s' : State) :
  step src ops snk a s = Some s' →
  (src_task s = SExit → src_task s' = SExit) ∧
  (∀ i, op_tasks s !! i = Some OExit → op_tasks s' !! i = Some OExit) ∧
  (consumer s = CExit → consumer s' = CExit) ∧
  (done s = true → done s' = true) ∧
  (is_Some (ret s) → is_Some (ret s')) ∧
  (is_Some (ctx s) → ctx s' = ctx s).
Proof.
  intros H. destruct s. simpl in *.
  destruct a; step_cases H; try done;
    unfold upd_chan, set_op_task, op_exit, src_exit; simpl;
    split_and!; try done; try (by intros [? ?]).
  all: intros j Hj; rewrite list_lookup_insert_ne; [done|]; intros ->; congruence.
Qed.

Section Shutdown.
Variable src : Source T.
Variable ops : list (Operator T).
Variable snk : Sink T.

Local Abbreviation reaches := (reach src ops snk).
Local Abbreviation cancelled_ok := (cancelled_inv src ops).

Lemma exec_app l1 l2 (s : State) :
  exec src ops snk (l1 ++ l2) s = exec src ops snk l1 s ≫= exec src ops snk l2.
Proof.
  revert s. induction l1 as [|a l1 IH]; intros s; simpl; [done|].
  destruct (step src ops snk a s); simpl; [apply IH|done].
Qed.

Lemma reach_refl (s : State) : reaches s s.
Proof. by exists []. Qed.

Lemma reach_trans (s1 s2 s3 : State) : reaches s1 s2 → reaches s2 s3 → reaches s1 s3.
Proof.
  intros [l1 H1] [l2 H2]. exists (l1 ++ l2). rewrite exec_app, H1. done.
Qed.

Lemma reach_step a (s s' : State) : step src ops snk a s = Some s' → reaches s s'.
Proof. intros H. exists [a]. simpl. by rewrite H. Qed.

Lemma cancelled_step a (s s' : State) :
  positive_interval src → cancelled_ok s →
  step src ops snk a s = Some s' → cancelled_ok s'.
Proof.
  intros Hp [H1 H2 H3] H. split.
  - destruct (step_stable _ _ _ _ _ _ H) as (_ & _ & _ & _ & _ & Hc).
    by rewrite (Hc H1).
  - by eapply step_src_ok.
  - by eapply step_run_inv.
Qed.

Lemma cancelled_reach (s s' : State) :
  positive_interval src → cancelled_ok s → reaches s s' → cancelled_ok s'.
Proof.
  intros Hp Hc [sched He]. revert s Hc He.
  induction sched as [|a sched IH]; intros s Hc; simpl; [by intros [= <-]|].
  destruct (step src ops snk a s) as [s1|] eqn:Hs; [|done]. simpl.
  apply IH. by eapply cancelled_step.
Qed.

Lemma stable_reach (s s' : State) :
  reaches s s' →
  (src_task s = SExit → src_task s' = SExit) ∧
  (∀ i, op_tasks s !! i = Some OExit → op_tasks s' !! i = Some OExit) ∧
  (consumer s = CExit → consumer s' = CExit) ∧
  (done s = true → done s' = true) ∧
  (is_Some (ret s) → is_Some (ret s')).
Proof.
  intros [sched He]. revert s He.
  induction sched as [|a sched IH]; intros s; simpl; [by intros [= <-]|].
  destruct (step src ops snk a s) as [s1|] eqn:Hs; [|done]. simpl. intros He.
  destruct (step_stable _ _ _ _ _ _ Hs) as (A1 & A2 & A3 & A4 & A5 & _).
  destruct (IH _ He) as (B1 & B2 & B3 & B4 & B5). split_and!; auto.
Qed.

Lemma live_step_eq a (s : State) :
  src_ok src (src_task s) → step src ops snk a s = dispatch src ops snk a s.
Proof. intros H. unfold step. by destruct (src_task s). Qed.

(** the producer of the source returns *)
Lemma shut_src (s : State) :
  positive_interval src → cancelled_ok s →
  ∃ s', reaches s s' ∧ src_task s' = SExit.
Proof.
  intros Hp [[r Hr] Hok Hri].
  assert (Hdone : ∀ s1 : State, ctx s1 = Some r → src_task s1 = SWait →
                    ∃ s', reaches s1 s' ∧ src_task s' = SExit).
  { intros s1 Hr1 Ht1. eexists. split; [|shelve]. eapply (reach_step SrcDone).
    rewrite live_step_eq by (by rewrite Ht1). simpl. unfold step_src, cancelled.
    rewrite Ht1, Hr1. by destruct src.
    Unshelve. done. }
  destruct (src_task s) as [| |m| |] eqn:Ht; try done.
  - (* before the first poll *)
    destruct src as [| url interval parser | |] eqn:Hsrc; try done.
    simpl in Hp.
    assert (Hs : step src ops snk (SrcPoll PollFailed 0) s
                 = Some (set_src_task SWait s)).
    { rewrite live_step_eq by (by rewrite Ht, Hsrc). rewrite Hsrc. simpl.
      unfold step_src. rewrite Ht. rewrite bool_decide_eq_false_2 by lia. done. }
    rewrite <- Hsrc in *.
    destruct (Hdone (set_src_task SWait s)) as (s' & H1 & H2); try done.
    exists s'. split; [|done]. eapply reach_trans; [by eapply reach_step|done].
  - by apply Hdone.
  - (* at a send *)
    assert (Hs : (∃ s1, step src ops snk SrcDone s = Some s1 ∧ ctx s1 = Some r ∧
                        src_task s1 = SWait) ∨
                 (∃ s1, step src ops snk SrcDone s = Some s1 ∧ src_task s1 = SExit)).
    { rewrite live_step_eq by (by rewrite Ht). simpl. unfold step_src, cancelled.
      rewrite Ht, Hr. destruct src; [right|left|right|right]; eauto. }
    destruct Hs as [(s1 & Hs & Hr1 & Ht1)|(s1 & Hs & Ht1)].
    + destruct (Hdone s1) as (s' & H1 & H2); try done.
      exists s'. split; [|done]. eapply reach_trans; [by eapply reach_step|done].
    + exists s1. split; [by eapply reach_step|done].
  - exists s. split; [apply reach_refl|done].
Qed.

(** forwarder [k] returns once its input channel is closed *)
Lemma shut_op k (s : State) c :
  cancelled_ok s → (k < length ops)%nat →
  chans s !! k = Some c → closed c = true →
  ∃ s', reaches s s' ∧ op_tasks s' !! k = Some OExit.
Proof.
  intros [[r Hr] Hok [Hl1 Hl2 _ _ _ _ _]] Hk Hc Hcl.
  destruct (lookup_lt_is_Some_2 ops k Hk) as [op Hop].
  destruct (lookup_lt_is_Some_2 (op_tasks s) k ltac:(lia)) as [t Ht].
  destruct t as [|m|].
  - assert (Hs : ∃ s', step src ops snk (OpRecv k) s = Some s' ∧
                        op_tasks s' !! k = Some OExit).
    { rewrite live_step_eq by done. simpl. unfold step_op, cancelled.
      rewrite Hop, Ht, Hc, Hr. simpl.
      destruct (buf c); rewrite ?Hcl; eexists; (split; [done|]);
        unfold op_exit, set_op_task; simpl; apply list_lookup_insert_eq;
        rewrite ?length_alter; lia. }
    destruct Hs as (s' & Hs & H'). exists s'. split; [by eapply reach_step|done].
  - eexists. split; [eapply (reach_step (OpDone k))|].
    + rewrite live_step_eq by done. simpl. unfold step_op, cancelled.
      by rewrite Ht, Hr.
    + unfold op_exit, set_op_task; simpl. apply list_lookup_insert_eq; lia.
  - exists s. split; [apply reach_refl|done].
Qed.

(** the forwarders return one after the other, first to last *)
Lemma shut_ops k (s : State) :
  positive_interval src → cancelled_ok s → src_task s = SExit →
  (k ≤ length ops)%nat →
  ∃ s', reaches s s' ∧ ∀ i, (i < k)%nat → op_tasks s' !! i = Some OExit.
Proof.
  intros Hp Hc Hsrc. induction k as [|k IH]; intros Hk.
  { exists s. split; [apply reach_refl|]. intros i Hi. lia. }
  destruct IH as (s1 & Hr1 & H1); [lia|].
  pose proof (cancelled_reach _ _ Hp Hc Hr1) as Hc1.
  destruct (stable_reach _ _ Hr1) as (Hs1 & _).
  pose proof Hc1 as [Hx Hok [Hl1 Hl2 Hlk Hq1 Hq2 Hq3 Hq4]].
  destruct (lookup_lt_is_Some_2 (chans s1) k ltac:(lia)) as [c Hck].
  assert (Hcl : closed c = true).
  { rewrite (Hlk _ _ Hck). destruct k as [|j]; simpl.
    - by rewrite Hs1.
    - rewrite H1 by lia. done. }
  destruct (shut_op k s1 c) as (s2 & Hr2 & H2); [done|lia|done|done|].
  exists s2. split; [by eapply reach_trans|].
  intros i Hi. destruct (decide (i = k)) as [->|Hne]; [done|].
  apply (stable_reach _ _ Hr2). apply H1. lia.
Qed.

(** the consumer returns once its input channel is closed: it hands what
    is left on the channel to the sink, or gives up at a failed write *)
Lemma shut_consumer n (s : State) c :
  positive_interval src → cancelled_ok s →
  chans s !! length ops = Some c → closed c = true → length (buf c) = n →
  ∃ s', reaches s s' ∧ consumer s' = CExit.
Proof.
  intros Hp. revert s c. induction n as [|n IH]; intros s c Hci Hc Hcl Hn.
  all: pose proof Hci as [[r Hr] Hok _].
  all: destruct (consumer s) as [|e|] eqn:Hcons.
  all: try (exists s; split; [apply reach_refl|done]).
  all: try (eexists; split; [eapply (reach_step ConsDone)|];
            [rewrite live_step_eq by done; simpl; unfold step_sink, cancelled;
             by rewrite Hcons, Hr|done]).
  - eexists. split; [eapply (reach_step Consume)|].
    + rewrite live_step_eq by done. simpl. unfold step_sink.
      rewrite Hcons, Hc. simpl. destruct (buf c); [|done]. by rewrite Hcl.
    + done.
  - destruct (buf c) as [|m rest] eqn:Hb; [done|]. simpl in Hn.
    assert (Hs : ∃ s1, step src ops snk Consume s = Some s1 ∧
                       chans s1 !! length ops = Some (chan_pop c)).
    { rewrite live_step_eq by done. simpl. unfold step_sink.
      rewrite Hcons, Hc. simpl. rewrite Hb.
      destruct (sink_Write snk (writes s) m); eexists; (split; [done|]);
        unfold upd_chan; simpl; by rewrite list_lookup_alter_eq, Hc. }
    destruct Hs as (s1 & Hs & Hc1).
    destruct (IH s1 (chan_pop c)) as (s' & Hr' & H'); try done.
    + by eapply cancelled_step.
    + simpl. rewrite Hb. simpl. lia.
    + exists s'. split; [|done]. eapply reach_trans; [by eapply reach_step|done].
Qed.

(** Once the context is done every goroutine of the run can return, and
    [Run] with them. *)
Lemma shut_all (s : State) :
  positive_interval src → cancelled_ok s →
  ∃ s', reaches s s' ∧ all_returned s'.
Proof.
  intros Hp Hc.
  destruct (shut_src s Hp Hc) as (s1 & Hr1 & H1).
  pose proof (cancelled_reach _ _ Hp Hc Hr1) as Hc1.
  destruct (shut_ops (length ops) s1 Hp Hc1 H1 ltac:(lia)) as (s2 & Hr2 & H2).
  pose proof (cancelled_reach _ _ Hp Hc1 Hr2) as Hc2.
  destruct (stable_reach _ _ Hr2) as (Hs2 & _). specialize (Hs2 H1).
  pose proof Hc2 as [_ _ [Hl1 Hl2 Hlk _ _ _ _]].
  destruct (lookup_lt_is_Some_2 (chans s2) (length ops) ltac:(lia)) as [c Hcn].
  assert (Hcl : closed c = true).
  { rewrite (Hlk _ _ Hcn). destruct (length ops) as [|j] eqn:Hn; simpl.
    - by rewrite Hs2.
    - rewrite H2 by lia. done. }
  destruct (shut_consumer _ s2 c Hp Hc2 Hcn Hcl eq_refl) as (s3 & Hr3 & H3).
  pose proof (cancelled_reach _ _ Hp Hc2 Hr3) as Hc3.
  assert (H4 : ∃ s4, reaches s3 s4 ∧ done s4 = true).
  { destruct (done s3) eqn:Hd; [exists s3; split; [apply reach_refl|done]|].
    eexists. split; [eapply (reach_step Wait)|].
    - rewrite live_step_eq by apply Hc3. simpl. unfold step_sink.
      by rewrite H3, Hd.
    - done. }
  destruct H4 as (s4 & Hr4 & H4).
  pose proof (cancelled_reach _ _ Hp Hc3 Hr4) as Hc4.
  assert (H5 : ∃ s5, reaches s4 s5 ∧ is_Some (ret s5)).
  { destruct (ret s4) as [r|] eqn:Hret; [exists s4; split; [apply reach_refl|by rewrite Hret]|].
    destruct Hc4 as [[e He] Hok4 _].
    eexists. split; [eapply (reach_step DriverCancel)|].
    - rewrite live_step_eq by done. simpl. unfold step_driver.
      by rewrite Hret, He.
    - done. }
  destruct H5 as (s5 & Hr5 & H5).
  pose proof (cancelled_reach _ _ Hp Hc4 Hr5) as Hc5.
  assert (Hr25 : reaches s2 s5) by (eapply reach_trans; [|eapply reach_trans]; done).
  assert (Hr35 : reaches s3 s5) by (by eapply reach_trans).
  exists s5. split.
  { eapply reach_trans; [exact Hr1|]. eapply reach_trans; [exact Hr2|done]. }
  destruct Hc5 as [_ _ [Hm1 Hm2 Hmk _ _ _ _]].
  assert (Hsrc5 : src_task s5 = SExit) by (by apply (stable_reach _ _ Hr25)).
  assert (Hops5 : ∀ i, (i < length ops)%nat → op_tasks s5 !! i = Some OExit).
  { intros i Hi. apply (stable_reach _ _ Hr25). by apply H2. }
  split_and!; try done.
  - apply Forall_lookup. intros i t Ht.
    rewrite Hops5 in Ht; [congruence|]. apply lookup_lt_Some in Ht. lia.
  - by apply (stable_reach _ _ Hr35).
  - by apply (stable_reach _ _ Hr5).
  - apply Forall_lookup. intros j c' Hj. rewrite (Hmk _ _ Hj).
    destruct j as [|i]; simpl; [by rewrite Hsrc5|].
    rewrite Hops5; [done|]. apply lookup_lt_Some in Hj. lia.
Qed.

End Shutdown.

End LinkLemmas.

(** ** What [Run] returns, in every run *)

Section OutcomeLemmas.
Context {T : Type}.
Local Abbreviation Msg := (Message T).
Local Abbreviation State := (RunState T).
Variable src : Source T.
Variable ops : list (Operator T).
Variable snk : Sink T.

(** the record of calls only grows *)
Lemma step_calls a (s s' : State) :
  step src ops snk a s = Some s' → ∃ l, calls s' = calls s ++ l.
Proof.
  intros H. destruct s. simpl in *.
  destruct a; step_cases H; simpl;
    first [ by exists []; rewrite app_nil_r
          | by eexists
          | rewrite <- app_assoc; by eexists ].
Qed.

Lemma step_write_errors a (s s' : State) e rest :
  step src ops snk a s = Some s' → write_errors s = e :: rest →
  ∃ rest', write_errors s' = e :: rest'.
Proof.
  intros [l Hl]%step_calls Hw. unfold write_errors in *.
  rewrite Hl, bind_app, Hw. by eexists.
Qed.

Lemma step_return_case a (s s' : State) r :
  step src ops snk a s = Some s' → ret s = None → ret s' = Some r →
  a = DriverDone ∨ a = DriverErr ∨
  (a = DriverCancel ∧ ∃ e, r = Some e ∧ ctx s' = Some e ∧
                           close_calls s' = close_calls s).
Proof.
  intros [_ Hs]%step_dispatch Hr Hr'.
  destruct s as [cx fd gen st cs ts cons ers dn rt cl]. simpl in *. subst rt.
  destruct a; step_cases Hs; try done; auto.
  right; right. split; [done|]. eexists. by split_and!.
Qed.

Lemma step_outcome a (s s' : State) :
  errs_inv s → (ret s = None → close_calls s = []) →
  (∀ r, ret s = Some r → Run_outcome src snk s r) →
  step src ops snk a s = Some s' →
  ∀ r, ret s' = Some r → Run_outcome src snk s' r.
Proof.
  intros Hi Hc Ho Hs r Hr'.
  destruct (ret s) as [r0|] eqn:Hr.
  - (* Run had returned: nothing it is judged by changes *)
    destruct (step_returned _ _ _ _ _ _ _ Hs Hr) as [Hr1 Hcl].
    rewrite Hr1 in Hr'. injection Hr' as <-.
    destruct (step_stable _ _ _ _ _ _ Hs) as (_ & _ & _ & Hd & _ & Hx).
    unfold Run_outcome. rewrite Hcl.
    destruct (Ho r0 eq_refl) as [H|[H|[H|[H|H]]]].
    + left. destruct H as (? & ? & ? & ? & ?). split_and!; auto.
    + right; left. destruct H as (e & ? & ? & ? & ?). exists e. split_and!; auto.
    + right; right; left. destruct H as (e & ? & ? & ? & ? & ?). exists e.
      split_and!; auto.
    + right; right; right; left. destruct H as (e & -> & He & ?).
      exists e. rewrite Hx by (by rewrite He). done.
    + right; right; right; right. destruct H as (e & rest & -> & Hw & ?).
      destruct (step_write_errors _ _ _ _ _ Hs Hw) as [rest' Hw'].
      by exists e, rest'.
  - (* Run returns in this step *)
    specialize (Hc eq_refl).
    destruct (step_return_case _ _ _ _ Hs Hr Hr')
      as [->|[->|(-> & e & -> & He & Hcl)]].
    + destruct (DriverDone_closes _ _ _ _ _ (λ _, Hc) Hs) as [H1 H2].
      rewrite H2 in Hr'. injection Hr' as <-.
      assert (Hd : done s' = true).
      { apply step_dispatch in Hs as [_ Hs]. simpl in Hs. unfold step_driver in Hs.
        rewrite Hr in Hs. destruct (done s) eqn:Hd; [|done]. injection Hs as <-.
        unfold Run_finish. by repeat case_match. }
      unfold Run_outcome. rewrite H1.
      destruct (sink_Close snk) as [e|]; [right; left; by exists e|].
      destruct (Source_Close src) as [e|]; [right; right; left; by exists e|].
      by left.
    + pose proof (step_close_calls _ _ _ _ _ _ Hs ltac:(done)) as Hcl.
      pose proof Hs as Hs'.
      apply step_dispatch in Hs' as [_ Hs']. simpl in Hs'. unfold step_driver in Hs'.
      rewrite Hr in Hs'. destruct (buf (errs s)) as [|err l] eqn:Hb; [done|].
      destruct (Hi Hr) as [[k Hk] _]. unfold errs_sent in Hk. rewrite Hb in Hk.
      destruct (write_errors s) as [|e rest] eqn:Hw; [done|].
      pose proof (DriverErr_first _ _ _ _ _ _ _ Hi Hw Hs) as Hr1.
      rewrite Hr1 in Hr'. injection Hr' as <-.
      destruct (step_write_errors _ _ _ _ _ Hs Hw) as [rest' Hw'].
      right; right; right; right. exists e, rest'. by rewrite Hcl, Hc.
    + right; right; right; left. exists e. by rewrite Hcl, Hc.
Qed.

Lemma close_calls_written (s : State) : close_calls s ≫= written_of = [].
Proof.
  unfold close_calls. induction (calls s) as [|e l IH]; [done|].
  rewrite filter_cons. destruct e; simpl; try case_decide; try done;
    simpl; apply IH.
Qed.

(** once [done] is closed and [Run] has returned, no call is made on the
    source or the sink any more *)
Lemma step_after_done a (s s' : State) :
  consumer s = CExit → is_Some (ret s) →
  step src ops snk a s = Some s' → calls s' = calls s.
Proof.
  intros Hc [r Hr] [_ Hs]%step_dispatch. destruct s. simpl in *. subst.
  destruct a; step_cases Hs; try done.
Qed.

Lemma exec_after_done sched (s s' : State) :
  consumer s = CExit → is_Some (ret s) →
  exec src ops snk sched s = Some s' → calls s' = calls s.
Proof.
  revert s. induction sched as [|a sched IH]; intros s Hc Hr; simpl.
  - by intros [= ->].
  - destruct (step src ops snk a s) as [s1|] eqn:Hs; [|done]. simpl. intros He.
    destruct (step_stable _ _ _ _ _ _ Hs) as (_ & _ & Hc1 & _ & Hr1 & _).
    rewrite (IH s1); auto. by eapply step_after_done.
Qed.

Lemma step_caps a (s s' : State) :
  step src ops snk a s = Some s' → map cap (chans s') = map cap (chans s).
Proof.
  intros H. destruct s. simpl in *.
  assert (Ha : ∀ (g : chan Msg → chan Msg) k cs,
             (∀ c, cap (g c) = cap c) → map cap (alter g k cs) = map cap cs).
  { intros g k cs Hg. revert k. induction cs as [|c cs IH]; intros [|k]; try done.
    - simpl. by rewrite Hg.
    - simpl. f_equal. apply IH. }
  destruct a; step_cases H; try done;
    unfold upd_chan, set_op_task, op_exit, src_exit; simpl;
    rewrite ?Ha; done.
Qed.

End OutcomeLemmas.

(** ** Every envelope goes through every operator *)

Section StageLemmas.
Context {T : Type}.
Local Abbreviation Msg := (Message T).
Local Abbreviation State := (RunState T).

Lemma apply_chain_app (ops1 ops2 : list (Operator T)) (m : Msg) :
  apply_chain (ops1 ++ ops2) m = apply_chain ops1 m ≫= apply_chain ops2.
Proof.
  revert m. induction ops1 as [|op ops1 IH]; intros m; simpl; [done|].
  destruct (Operator_apply op m); simpl; [apply IH|done].
Qed.

Lemma through_next (P0 : Msg → Prop) ops i op (m m' : Msg) :
  ops !! i = Some op → Operator_apply op m = Some m' →
  through P0 ops i m → through P0 ops (S i) m'.
Proof.
  intros Hop Ha (m0 & H0 & Hc). exists m0. split; [done|].
  rewrite (take_S_r _ _ _ Hop), apply_chain_app, Hc. simpl. by rewrite Ha.
Qed.

Lemma through_source (P0 : Msg → Prop) ops (m : Msg) :
  P0 m → through P0 ops 0 m.
Proof. intros H. exists m. split; [done|]. by rewrite take_0. Qed.

Section Chans.
Variable Q : nat → Msg → Prop.

Lemma chans_alter (cs : list (chan Msg)) g k :
  (∀ c, cs !! k = Some c → Forall (Q k) (buf c) → Forall (Q k) (buf (g c))) →
  (∀ j c, cs !! j = Some c → Forall (Q j) (buf c)) →
  ∀ j c, alter g k cs !! j = Some c → Forall (Q j) (buf c).
Proof.
  intros Hg H j c. rewrite list_lookup_alter. case_decide as Hd.
  - subst. destruct (cs !! j) as [c'|] eqn:E; [|done]. simpl. intros [= <-].
    apply Hg; [done|]. by apply H.
  - apply H.
Qed.

Lemma chans_pop (cs : list (chan Msg)) k :
  (∀ j c, cs !! j = Some c → Forall (Q j) (buf c)) →
  ∀ j c, alter chan_pop k cs !! j = Some c → Forall (Q j) (buf c).
Proof. apply chans_alter. intros c _. apply Forall_tail. Qed.

Lemma chans_close (cs : list (chan Msg)) k :
  (∀ j c, cs !! j = Some c → Forall (Q j) (buf c)) →
  ∀ j c, alter chan_close k cs !! j = Some c → Forall (Q j) (buf c).
Proof. apply chans_alter. by intros c _. Qed.

Lemma chans_push (cs : list (chan Msg)) k m :
  Q k m →
  (∀ j c, cs !! j = Some c → Forall (Q j) (buf c)) →
  ∀ j c, alter (chan_push m) k cs !! j = Some c → Forall (Q j) (buf c).
Proof.
  intros Hm. apply chans_alter. intros c _ Hc. simpl.
  apply Forall_app. split; [done|]. by apply Forall_singleton.
Qed.

Lemma chans_head (cs : list (chan Msg)) k c m rest :
  (∀ j c, cs !! j = Some c → Forall (Q j) (buf c)) →
  cs !! k = Some c → buf c = m :: rest → Q k m.
Proof.
  intros H Hc Hb. specialize (H _ _ Hc). rewrite Hb in H.
  by apply Forall_cons in H as [? _].
Qed.

Lemma tasks_insert (ts : list (OpTask T)) i t :
  Forall (Q (S i)) (held_op t) →
  (∀ k t, ts !! k = Some t → Forall (Q (S k)) (held_op t)) →
  ∀ k t', <[i := t]> ts !! k = Some t' → Forall (Q (S k)) (held_op t').
Proof.
  intros Ht H k t'. rewrite list_lookup_insert. case_decide as Hd.
  - destruct Hd as [-> _]. by intros [= <-].
  - apply H.
Qed.

End Chans.

Lemma step_staged (P0 : Msg → Prop) src ops snk a (s s' : State) :
  source_makes src P0 →
  staged P0 ops s → step src ops snk a s = Some s' → staged P0 ops s'.
Proof.
  intros HP [H1 H2 H3 H4] [_ H]%step_dispatch. destruct s. simpl in *.
  unfold source_makes in HP.
  destruct a; step_cases H; try done.
  all: split; unfold upd_chan, set_op_task, op_exit, src_exit, written in *; simpl;
    rewrite ?bind_app; simpl; rewrite ?app_nil_r; try done.
  all: repeat match goal with
    | |- Forall _ [] => constructor
    | |- Forall _ (_ ++ [_]) => apply Forall_app; split; [done|]
    | |- Forall _ [_] => apply Forall_singleton
    | |- Forall _ (held_src (after_poll ?r)) =>
        let E := fresh in destruct r eqn:E; simpl; [|constructor]
    | |- Forall _ (held_op (after_apply ?r)) =>
        let E := fresh in destruct r eqn:E; simpl; [|constructor]
    | |- ∀ j c, alter chan_pop _ _ !! j = Some c → _ =>
        apply (chans_pop (through P0 ops))
    | |- ∀ j c, alter chan_close _ _ !! j = Some c → _ =>
        apply (chans_close (through P0 ops))
    | |- ∀ j c, alter (chan_push _) _ _ !! j = Some c → _ =>
        apply (chans_push (through P0 ops))
    | |- ∀ k t, <[_ := _]> _ !! k = Some t → _ =>
        apply (tasks_insert (through P0 ops))
    end.
  all: try done.
  all: try (apply through_source; by eapply HP).
  all: try (by inversion H1).
  all: try (by eapply (chans_head (through P0 ops))).
  all: try match goal with
    | Ht : ?ts !! ?i = Some (OSend ?m) |- through _ _ (S ?i) ?m =>
        specialize (H3 _ _ Ht); by inversion H3
    end.
  all: try (eapply through_next; [eassumption..|];
            by eapply (chans_head (through P0 ops))).
Qed.

End StageLemmas.

(** ** Runs from their start *)

Section MoreRuns.
Context {T : Type}.
Local Abbreviation Msg := (Message T).
Local Abbreviation State := (RunState T).

Local Arguments flow_live : simpl never.

Lemma flow_live_init (up : list Msg) ops c :
  buf c = [] →
  flow_live up ops (replicate (length ops) ORecv)
            (c :: replicate (length ops) (make_chan Msg 100))
  = Pipeline_output ops up.
Proof.
  revert up c. induction ops as [|op ops IH]; intros up c Hc.
  - unfold flow_live. simpl. by rewrite Hc.
  - simpl. rewrite flow_live_cons. unfold stage_out. simpl. rewrite Hc. simpl.
    by apply IH.
Qed.

Lemma Pipeline_output_values (ops : list (Operator T)) (l : list T) :
  Pipeline_output ops (map ChannelSource_message l)
  = map ChannelSource_message (Pipeline_values ops l).
Proof.
  revert l. induction ops as [|op ops IH]; intros l; [done|].
  unfold Pipeline_output, Pipeline_values in *. simpl.
  destruct op as [fn|fn]; simpl.
  - rewrite apply_all_Map, <- IH. f_equal. rewrite !map_map. done.
  - by rewrite apply_all_Filter, <- IH.
Qed.

Lemma Pipeline_values_length (ops : list (Operator T)) (l : list T) :
  (length (Pipeline_values ops l) ≤ length l)%nat.
Proof.
  revert l. induction ops as [|op ops IH]; intros l; [done|].
  unfold Pipeline_values in *. simpl. etrans; [apply IH|].
  destruct op as [fn|fn]; simpl.
  - by rewrite length_map.
  - induction l as [|x l IHl]; simpl; [done|]. destruct (fn x); simpl; lia.
Qed.

Lemma init_shape (p : Pipeline T) ctx0 c t :
  shape_ok (operators p) (init_state p ctx0 c t).
Proof. split; simpl; by rewrite length_replicate. Qed.

Lemma init_live (p : Pipeline T) ctx0 fd cl :
  source p = ChannelSource fd cl →
  written (init_state p ctx0 (make_chan Msg 100) SWait)
  ++ to_come (operators p) (init_state p ctx0 (make_chan Msg 100) SWait)
  = Pipeline_output (operators p) (map ChannelSource_message fd).
Proof.
  intros Hsrc.
  destruct (init_calls p ctx0 (make_chan Msg 100) SWait) as (_ & _ & ->).
  unfold to_come, src_live, src_up. simpl. rewrite Hsrc. simpl.
  by apply flow_live_init.
Qed.

Lemma Source_Stream_task (src : Source T) c t :
  Source_Stream src = inr (c, t) → src_ok src t ∧ src_exited t = false.
Proof.
  destruct src as [interval g|url interval parser|fd cl|[e|] ce n]; simpl;
    try case_bool_decide; intros; by simplify_eq.
Qed.

Lemma init_run_inv (p : Pipeline T) ctx0 c t :
  errChan p = make_chan error 10 →
  Source_Stream (source p) = inr (c, t) →
  run_inv (operators p) (init_state p ctx0 c t).
Proof.
  intros He Hs. destruct (Source_Stream_fresh _ _ _ Hs) as (Hb & _ & Hcl).
  destruct (Source_Stream_task _ _ _ Hs) as (_ & Hex).
  split; simpl; rewrite ?length_replicate, ?He; try done.
  - intros [|j] c' Hc'; simpl in *.
    + injection Hc' as <-. by rewrite Hex.
    + apply lookup_replicate in Hc' as [-> _]. simpl.
      destruct (replicate (length (operators p)) ORecv !! j) as [t'|] eqn:E; [|done].
      by apply lookup_replicate in E as [-> _].
  - constructor; [unfold chan_bounded; rewrite Hb; simpl; lia|].
    apply Forall_replicate. unfold chan_bounded. simpl. lia.
  - unfold chan_bounded. simpl. lia.
Qed.

Lemma init_staged (P0 : Msg → Prop) (p : Pipeline T) ctx0 c t :
  buf c = [] → held_src t = [] →
  staged P0 (operators p) (init_state p ctx0 c t).
Proof.
  intros Hc Ht. destruct (init_calls p ctx0 c t) as (_ & _ & Hw).
  split; simpl; rewrite ?Ht, ?Hw; try done.
  - intros [|j] c' Hc'; simpl in *.
    + injection Hc' as <-. by rewrite Hc.
    + by apply lookup_replicate in Hc' as [-> _].
  - intros i t' Ht'. by apply lookup_replicate in Ht' as [-> _].
Qed.

Lemma run_run_inv (p : Pipeline T) snk ctx0 s0 sched s :
  errChan p = make_chan error 10 →
  Run_start p ctx0 = RunStarted s0 →
  exec (source p) (operators p) snk sched s0 = Some s →
  run_inv (operators p) s ∧
  (positive_interval (source p) → src_ok (source p) (src_task s)).
Proof.
  intros Herr (snk' & c & t & _ & Hc & ->)%Run_start_started He.
  eapply (exec_inv _ _ _
            (λ s, run_inv (operators p) s ∧
                  (positive_interval (source p) → src_ok (source p) (src_task s))));
    [| |exact He].
  - intros a s1 s2 [H1 H2] Hs. split; [by eapply step_run_inv|].
    intros Hp. eapply step_src_ok; eauto.
  - split; [by apply init_run_inv|]. intros _.
    by apply Source_Stream_task in Hc as [? _].
Qed.

End MoreRuns.

(** ** More about what a run does *)

Section MoreTheorems.
Context {T : Type}.
Local Abbreviation Msg := (Message T).
Local Abbreviation State := (RunState T).

(** X1. Any sequence of Map and Filter operators, over a channel source
    whose feed is closed after its last value, with a sink that never
    fails and a context that is not cancelled: when [Run] has returned it
    has returned nil and the sink has been given, in order, one envelope
    for each value that the operators, applied one after the other to the
    whole feed, let through; until then some goroutine can move, no
    schedule is longer than the bound, and every schedule can be
    continued to the return of [Run]. *)
Theorem pipeline_delivers (p : Pipeline T) feed0 snk ctx0 s0 sched s :
  source p = ChannelSource feed0 true → sink p = Some snk →
  errChan p = make_chan error 10 →
  (∀ n m, sink_Write snk n m = None) → sink_Close snk = None →
  Run_start p ctx0 = RunStarted s0 →
  exec (source p) (operators p) snk sched s0 = Some s →
  ctx s = None →
  (∀ r, ret s = Some r →
        r = None ∧
        written s = map ChannelSource_message (Pipeline_values (operators p) feed0) ∧
        map Value (written s) = Pipeline_values (operators p) feed0) ∧
  (ret s = None →
   ∃ a s', is_cancel a = false ∧
           step (source p) (operators p) snk a s = Some s') ∧
  (length sched ≤ length feed0 * (2 * length (operators p) + 3)
                  + length (operators p) + 4)%nat ∧
  (∃ sched' s',
     exec (source p) (operators p) snk sched' s = Some s' ∧ ctx s' = None ∧
     ret s' = Some None ∧
     map Value (written s') = Pipeline_values (operators p) feed0).
Proof.
  intros Hsrc Hsnk Herr Hw Hc Hstart He Hctx.
  assert (Hv : ∀ l : list T, map Value (map ChannelSource_message l) = l).
  { intros l. rewrite map_map. simpl. apply map_id. }
  destruct (Run_delivers p feed0 snk ctx0 s0 sched s) as (_ & H2 & H3 & H4 & H5);
    try done.
  { by rewrite Herr. }
  rewrite Pipeline_output_values in H2, H5.
  split_and!; try done.
  - intros r Hr. destruct (H2 r Hr) as [-> Hwr]. by rewrite Hwr, Hv.
  - destruct H5 as (sched' & s' & H5 & H6 & H7 & H8).
    exists sched', s'. by rewrite H8, Hv.
Qed.

(** X2. Whatever the schedule, and whether or not the context is
    cancelled, a [Write] fails or the feed is ever closed: the envelopes
    the sink of a channel-source pipeline has been given are, in order,
    the first ones of what the operators make of the whole feed. Nothing
    is reordered, duplicated or made up, and the sink is never given more
    envelopes than the feed has values. *)
Theorem sink_given_in_order (p : Pipeline T) fd cl snk ctx0 s0 sched s :
  source p = ChannelSource fd cl → sink p = Some snk →
  Run_start p ctx0 = RunStarted s0 →
  exec (source p) (operators p) snk sched s0 = Some s →
  written s `prefix_of`
    map ChannelSource_message (Pipeline_values (operators p) fd) ∧
  map Value (written s) `prefix_of` Pipeline_values (operators p) fd ∧
  (length (written s) ≤ length fd)%nat.
Proof.
  intros Hsrc Hsnk Hstart He.
  pose proof Hstart as (snk' & c & t & _ & Hc & ->)%Run_start_started.
  destruct (Source_Stream_fresh _ _ _ Hc) as (Hb & _ & _).
  rewrite Hsrc in He, Hc. simpl in Hc. injection Hc as <- <-.
  destruct (live_exec _ _ _ _ _ _ _ (init_shape p ctx0 _ _) He) as [_ Hpre].
  rewrite (init_live p ctx0 fd cl Hsrc), Pipeline_output_values in Hpre.
  assert (Hp : written s `prefix_of`
                 map ChannelSource_message (Pipeline_values (operators p) fd)).
  { etrans; [|exact Hpre]. by apply prefix_app_r. }
  split_and!; [done| |].
  - destruct Hp as [k Hk].
    assert (Hv : map Value (map ChannelSource_message (Pipeline_values (operators p) fd))
                 = Pipeline_values (operators p) fd).
    { rewrite map_map. simpl. apply map_id. }
    rewrite <- Hv, Hk, map_app. by eexists.
  - apply prefix_length in Hp. rewrite length_map in Hp.
    pose proof (Pipeline_values_length (operators p) fd). lia.
Qed.

(** X3. In every state of a run, every channel of the chain is closed
    exactly when the goroutine that sends on it has returned (the close
    is deferred to its return), and the error channel is never closed.
    So no goroutine ever sends on a closed channel, and no channel is
    closed twice. *)
Theorem channel_closed_by_sender (p : Pipeline T) snk ctx0 s0 sched s :
  sink p = Some snk → errChan p = make_chan error 10 →
  Run_start p ctx0 = RunStarted s0 →
  exec (source p) (operators p) snk sched s0 = Some s →
  (∀ j c, chans s !! j = Some c →
          closed c = sender_exited (src_task s) (op_tasks s) j) ∧
  closed (errs s) = false ∧
  (∀ a s' j, step (source p) (operators p) snk a s = Some s' →
             sends_on a = Some j →
             ∃ c, chans s !! j = Some c ∧ closed c = false).
Proof.
  intros Hsnk Herr Hstart He.
  destruct (run_run_inv p snk ctx0 s0 sched s Herr Hstart He)
    as [[Hl1 Hl2 Hlk Hce _ _ _] _].
  split_and!; [done..|].
  intros a s' j [_ Hs]%step_dispatch Hj.
  destruct a; simpl in Hj; try done; injection Hj as <-.
  - simpl in Hs. unfold step_src in Hs.
    destruct (src_task s) eqn:Ht; try (by destruct (source p)).
    destruct (chans s !! 0%nat) as [c|] eqn:Hc; [|by destruct (source p)].
    exists c. split; [done|]. by rewrite (Hlk _ _ Hc).
  - simpl in Hs. unfold step_op in Hs.
    destruct (op_tasks s !! i) as [t|] eqn:Ht; [|done].
    destruct (chans s !! S i) as [c|] eqn:Hc; [|done]. simpl in Hs.
    exists c. split; [done|]. rewrite (Hlk _ _ Hc). simpl. rewrite Ht.
    by destruct t.
Qed.

(** X4. Once the context is done, every goroutine of the run can run on
    to its return, whatever state the run is in: the producer of the
    source, every forwarder, the consumer and the goroutine that waits
    for it; all channels of the chain get closed and [Run] returns. The
    interval of an HTTP poll source has to be positive (otherwise its
    producer panics). *)
Theorem cancelled_run_shuts_down (p : Pipeline T) snk ctx0 s0 sched s :
  sink p = Some snk → errChan p = make_chan error 10 →
  positive_interval (source p) →
  Run_start p ctx0 = RunStarted s0 →
  exec (source p) (operators p) snk sched s0 = Some s →
  is_Some (ctx s) →
  ∃ sched' s', exec (source p) (operators p) snk sched' s = Some s' ∧
               all_returned s'.
Proof.
  intros Hsnk Herr Hp Hstart He Hctx.
  destruct (run_run_inv p snk ctx0 s0 sched s Herr Hstart He) as [Hri Hok].
  destruct (shut_all (source p) (operators p) snk s Hp) as (s' & [sched' Hr] & H').
  { split; auto. }
  by exists sched', s'.
Qed.

Lemma run_outcome (p : Pipeline T) snk ctx0 s0 sched s r :
  sink p = Some snk → errChan p = make_chan error 10 →
  Run_start p ctx0 = RunStarted s0 →
  exec (source p) (operators p) snk sched s0 = Some s →
  ret s = Some r →
  Run_outcome (source p) snk s r.
Proof.
  intros Hsnk Herr Hstart He.
  pose proof Hstart as (snk' & c & t & _ & _ & Hs0)%Run_start_started.
  assert (H : errs_inv s ∧ (ret s = None → close_calls s = []) ∧
              (∀ r, ret s = Some r → Run_outcome (source p) snk s r)).
  { eapply (exec_inv _ _ _
              (λ s, errs_inv s ∧ (ret s = None → close_calls s = []) ∧
                    (∀ r, ret s = Some r → Run_outcome (source p) snk s r)));
      [| |exact He].
    - intros a s1 s2 (H1 & H2 & H3) Hs. split_and!.
      + by eapply step_errs_inv.
      + by eapply step_no_close.
      + by eapply step_outcome.
    - destruct (outcome_inv p snk ctx0 s0 [] s0) as (H1 & H2 & _); try done.
      { by rewrite Herr. }
      split_and!; try done. subst s0. done. }
  apply H.
Qed.

(** X5. What [Run] returns is decided by the case its select takes, and
    there is nothing else it can return once it has got to the select:
    nil or the error of a [Close] after both or one [Close] call, made
    once [done] is closed; the error of the context, which is then done;
    or the error of the first failed [Write] of the run, wrapped. In the
    last two cases no [Close] is ever called. *)
Theorem Run_returns_one_of (p : Pipeline T) snk ctx0 s0 sched s r :
  sink p = Some snk → errChan p = make_chan error 10 →
  Run_start p ctx0 = RunStarted s0 →
  exec (source p) (operators p) snk sched s0 = Some s →
  ret s = Some r →
  Run_outcome (source p) snk s r.
Proof. apply run_outcome. Qed.

(** X6. When the select of [Run] takes its [<-done] case the consumer
    goroutine has returned, so that no [Write] is in progress when the
    sink is closed; and the [Close] calls are the last calls ever made on
    the sink and the source: the sink is never written to after it has
    been closed. *)
Theorem sink_closed_last (p : Pipeline T) snk ctx0 s0 sched s s' sched' s'' :
  sink p = Some snk → errChan p = make_chan error 10 →
  Run_start p ctx0 = RunStarted s0 →
  exec (source p) (operators p) snk sched s0 = Some s →
  step (source p) (operators p) snk DriverDone s = Some s' →
  exec (source p) (operators p) snk sched' s' = Some s'' →
  consumer s = CExit ∧
  calls s' = calls s ++ close_calls s' ∧
  calls s'' = calls s' ∧
  written s'' = written s.
Proof.
  intros Hsnk Herr Hstart He Hs He'.
  destruct (run_run_inv p snk ctx0 s0 sched s Herr Hstart He)
    as [[_ _ _ _ _ _ Hd] _].
  pose proof (run_no_close p snk ctx0 s0 sched s Hstart He) as Hc.
  pose proof Hs as [_ Hs']%step_dispatch. simpl in Hs'. unfold step_driver in Hs'.
  destruct (ret s) eqn:Hr; [done|]. specialize (Hc eq_refl).
  destruct (done s) eqn:Hdn; [|done]. specialize (Hd eq_refl).
  injection Hs' as Hs'.
  assert (H1 : calls s' = calls s ++ close_calls s').
  { rewrite <- Hs'. unfold Run_finish, close_calls in *.
    repeat case_match; simpl; rewrite ?filter_app, Hc; simpl;
      by rewrite <- ?app_assoc. }
  assert (H2 : consumer s' = CExit ∧ is_Some (ret s')).
  { rewrite <- Hs'. unfold Run_finish. repeat case_match; by simpl. }
  destruct H2 as [H2 H3].
  pose proof (exec_after_done _ _ _ _ _ _ H2 H3 He') as H4.
  split_and!; try done.
  unfold written. rewrite H4, H1, bind_app.
  by rewrite close_calls_written, app_nil_r.
Qed.

(** X7. The buffers of a run are bounded: no channel ever holds more
    than its capacity, which is the one its maker gave it: at most 100
    envelopes wait between two stages, at most as many as the source's
    channel takes (10 for the timer and the HTTP poll source, 100 for the
    channel source) wait behind the source, and at most 10 errors wait
    for [Run]. *)
Theorem buffers_bounded (p : Pipeline T) snk ctx0 c0 t0 s0 sched s :
  sink p = Some snk → errChan p = make_chan error 10 →
  Source_Stream (source p) = inr (c0, t0) →
  Run_start p ctx0 = RunStarted s0 →
  exec (source p) (operators p) snk sched s0 = Some s →
  (∀ c, chans s !! 0%nat = Some c → (length (buf c) ≤ cap c0)%nat) ∧
  (∀ i c, chans s !! S i = Some c → (length (buf c) ≤ 100)%nat) ∧
  (length (buf (errs s)) ≤ 10)%nat ∧
  (shipped (source p) = true → cap c0 = 10%nat ∨ cap c0 = 100%nat).
Proof.
  intros Hsnk Herr Hc0 Hstart He.
  destruct (run_run_inv p snk ctx0 s0 sched s Herr Hstart He)
    as [[_ _ _ _ Hb Heb _] _].
  destruct (outcome_inv p snk ctx0 s0 sched s) as (_ & _ & Hcap); try done.
  { by rewrite Herr. }
  pose proof Hstart as (snk' & c & t & _ & Hc & Hs0)%Run_start_started.
  rewrite Hc0 in Hc. injection Hc as <- <-.
  assert (Hcaps : map cap (chans s) = map cap (chans s0)).
  { eapply (exec_inv _ _ _ (λ s, map cap (chans s) = map cap (chans s0)));
      [| |exact He]; [|done].
    intros a s1 s2 H1 Hs. by rewrite (step_caps _ _ _ _ _ _ Hs). }
  rewrite Hs0 in Hcaps. simpl in Hcaps.
  assert (Hj : ∀ j c, chans s !! j = Some c →
                      (length (buf c) ≤ cap c)%nat ∧ map cap (chans s) !! j = Some (cap c)).
  { intros j c Hj. split; [by apply (Forall_lookup_1 _ _ _ _ Hb Hj)|].
    by rewrite list_lookup_fmap, Hj. }
  split_and!.
  - intros c Hc. destruct (Hj _ _ Hc) as [H1 H2]. rewrite Hcaps in H2.
    simpl in H2. injection H2 as H2. by rewrite H2.
  - intros i c Hc. destruct (Hj _ _ Hc) as [H1 H2]. rewrite Hcaps in H2.
    simpl in H2. rewrite list_lookup_fmap in H2.
    destruct (replicate _ _ !! i) as [c'|] eqn:E; [|done].
    apply lookup_replicate in E as [-> _]. simpl in H2. injection H2 as H2.
    rewrite <- H2 in H1. exact H1.
  - unfold chan_bounded in Heb. rewrite Hcap, Herr in Heb. exact Heb.
  - intros Hsh. destruct (source p); simpl in *; try case_bool_decide;
      simplify_eq; simpl; auto.
Qed.

(** X8. [Run] returns before it reaches its select in two cases only: no
    sink is attached, or [Stream] of the source fails; the latter after
    the one call of [Stream] and before any operator is started. Of the
    sources shipped only the timer fails to start, on an interval that
    is not positive. [Process] of Map and Filter never fails. *)
Theorem Run_start_failures (p : Pipeline T) ctx0 made err :
  Run_start p ctx0 = RunFailed made err →
  (sink p = None ∧ made = [] ∧ err = errorString "sink is required") ∨
  (∃ e, Source_Stream (source p) = inl e ∧ made = [EvStream] ∧
        err = wrapError "start source: " e ∧
        (shipped (source p) = true →
         ∃ interval generator,
           source p = CronSource interval generator ∧ interval ≤ 0 ∧
           e = errorString "interval must be positive")).
Proof.
  unfold Run_start. destruct (sink p) as [snk|]; [|intros [= <- <-]; by left].
  destruct (Source_Stream (source p)) as [e|[c t]] eqn:Hs.
  - intros [= <- <-]. right. exists e. split_and!; try done.
    intros Hsh. destruct (source p) as [interval g| | |]; try done.
    simpl in Hs. case_bool_decide; [|done]. injection Hs as <-.
    by exists interval, g.
  - by rewrite Run_operators_spec.
Qed.

(** X9. The HTTP poll source makes an envelope of a poll only when the
    response has status 200 exactly, its body could be read and the
    parser accepts it. Every envelope of a run over this source,
    wherever it is, has the URL as its key and the three metadata
    entries source, url and status, the status being "200". *)
Theorem HTTPSource_envelopes (p : Pipeline T) url interval parser snk ctx0 s0
    sched s :
  source p = HTTPSource url interval parser →
  sink p = Some snk →
  Run_start p ctx0 = RunStarted s0 →
  exec (source p) (operators p) snk sched s0 = Some s →
  all_messages
    (λ m : Msg, Key m = url ∧
                Metadata m = Some (<["source" := "http"]>
                                   (<["url" := url]> (<["status" := "200"]> ∅)))) s ∧
  (∀ o now m,
     HTTPSource_poll url parser o now = Some m ↔
     ∃ body value, o = PollResponse 200 (Some body) ∧ parser body = inl value ∧
                   m = mkMessage url value now
                         (Some (<["source" := "http"]>
                                (<["url" := url]> (<["status" := "200"]> ∅))))).
Proof.
  intros Hsrc Hsnk Hstart He.
  assert (Hpoll : ∀ o now m,
     HTTPSource_poll url parser o now = Some m ↔
     ∃ body value, o = PollResponse 200 (Some body) ∧ parser body = inl value ∧
                   m = mkMessage url value now
                         (Some (<["source" := "http"]>
                                (<["url" := url]> (<["status" := "200"]> ∅))))).
  { intros o now m. unfold HTTPSource_poll. split.
    - intros H. destruct o as [|status body]; [done|].
      case_bool_decide as Hst; [done|]. subst status.
      destruct body as [data|]; [|done].
      destruct (parser data) as [value|] eqn:Hp; [|done].
      injection H as <-. by exists data, value.
    - intros (body & value & -> & Hp & ->).
      rewrite bool_decide_eq_false_2 by (intros H; by apply H). by rewrite Hp. }
  split; [|done].
  eapply run_all_messages; [| |done..].
  - rewrite Hsrc. simpl. intros o now m (body & value & _ & _ & ->)%Hpoll. done.
  - intros [fn|fn] m m'; simpl.
    + by intros [= <-].
    + destruct (fn (Value m)); [|done]. by intros [= <-].
Qed.

(** X10. Every envelope of a run over the timer source, wherever it is,
    has a key "cron-" followed by a decimal number (the time read when it
    was built) and an allocated, empty metadata map; and the producer
    calls the generator once for each envelope it builds: the envelope it
    holds has the value of the latest call. *)
Theorem CronSource_envelopes (p : Pipeline T) interval generator snk ctx0 s0
    sched s :
  source p = CronSource interval generator →
  sink p = Some snk →
  Run_start p ctx0 = RunStarted s0 →
  exec (source p) (operators p) snk sched s0 = Some s →
  0 < interval ∧
  all_messages
    (λ m : Msg, (∃ now : Z, Key m = "cron-" +:+ pretty now) ∧
                Metadata m = Some ∅) s ∧
  (∀ m, src_task s = SSend m →
        ∃ n, gen_calls s = S n ∧ Value m = generator n).
Proof.
  intros Hsrc Hsnk Hstart He. split_and!.
  - apply Run_start_started in Hstart as (_ & c & t & _ & Hc & _).
    rewrite Hsrc in Hc. simpl in Hc. case_bool_decide; [done|]. lia.
  - eapply run_all_messages; [| |done..].
    + rewrite Hsrc. simpl. intros n now1 now2. split; [by exists now1|done].
    + intros [fn|fn] m m'; simpl.
      * by intros [= <-].
      * destruct (fn (Value m)); [|done]. by intros [= <-].
  - pose proof Hstart as (snk' & c & t & _ & Hc & Hs0)%Run_start_started.
    eapply (exec_inv _ _ _
              (λ s, ∀ m, src_task s = SSend m →
                         ∃ n, gen_calls s = S n ∧ Value m = generator n));
      [| |exact He].
    + intros a s1 s2 H1 [_ Hs]%step_dispatch. rewrite Hsrc in Hs.
      destruct s1. simpl in *.
      destruct a; step_cases Hs; try done; simpl; intros m' [= <-]; eauto.
    + rewrite Hs0. simpl. rewrite Hsrc in Hc. simpl in Hc.
      case_bool_decide; [done|]. by injection Hc as <- <-.
Qed.

(** X11. Whatever the source and the schedule: every envelope the sink is
    given is what the operators of the pipeline, applied one after the
    other, make of an envelope built by the source; none has skipped an
    operator. So when the last operator is a filter, every value the
    sink is given passes its predicate. *)
Theorem sink_given_processed (P0 : Msg → Prop) (p : Pipeline T) snk ctx0 s0
    sched s :
  source_makes (source p) P0 →
  sink p = Some snk →
  Run_start p ctx0 = RunStarted s0 →
  exec (source p) (operators p) snk sched s0 = Some s →
  Forall (λ m, ∃ m0, P0 m0 ∧ apply_chain (operators p) m0 = Some m) (written s) ∧
  (∀ ops' fn, operators p = ops' ++ [FilterOperator fn] →
              Forall (λ m, fn (Value m) = true) (written s)).
Proof.
  intros HP Hsnk Hstart He.
  pose proof Hstart as (snk' & c & t & _ & Hc & Hs0)%Run_start_started.
  destruct (Source_Stream_fresh _ _ _ Hc) as (Hb & Ht & _).
  assert (Hst : staged P0 (operators p) s).
  { eapply (exec_inv _ _ _ (staged P0 (operators p))); [| |exact He].
    - intros a s1 s2 H1 Hs. by eapply step_staged.
    - rewrite Hs0. by apply init_staged. }
  destruct Hst as [_ _ _ Hw].
  assert (Hall : Forall (λ m, ∃ m0, P0 m0 ∧ apply_chain (operators p) m0 = Some m)
                        (written s)).
  { eapply Forall_impl; [exact Hw|]. intros m (m0 & H0 & Hm). exists m0.
    by rewrite firstn_all in Hm. }
  split; [done|]. intros ops' fn Hops.
  eapply Forall_impl; [exact Hall|]. intros m (m0 & _ & Hm).
  rewrite Hops, apply_chain_app in Hm.
  destruct (apply_chain ops' m0) as [m1|]; [|done]. simpl in Hm.
  destruct (fn (Value m1)) eqn:Hf; [|done]. by injection Hm as <-.
Qed.

End MoreTheorems.

(** ** The HTTP sink *)

Section HTTPSinkLemmas.
Context {T : Type}.
Local Abbreviation Msg := (Message T).

(** X12. [HTTPSink.Write] returns nil exactly when the marshaler accepts
    the value and the endpoint answers with a status from 200 to 299.
    Only the value of the envelope goes into the request: key, timestamp
    and metadata are not sent, and the result does not depend on them. A
    value the marshaler refuses is reported without any request, whatever
    the network would do; a status outside 200..299 is reported with its
    number. *)
Theorem HTTPSink_Write_result (h : HTTPSink T) (o : SendOutcome) (msg : Msg) :
  (HTTPSink_Write h o msg = None ↔
   ∃ data status, http_marshaler h (Value msg) = inl data ∧
                  o = Responded status ∧ 200 ≤ status < 300) ∧
  (∀ msg' : Msg, Value msg' = Value msg →
     HTTPSink_request h msg' = HTTPSink_request h msg ∧
     HTTPSink_Write h o msg' = HTTPSink_Write h o msg) ∧
  (∀ e, http_marshaler h (Value msg) = inr e →
        HTTPSink_request h msg = inl (wrapError "marshal message: " e) ∧
        ∀ o', HTTPSink_Write h o' msg = Some (wrapError "marshal message: " e)) ∧
  (∀ data status,
     http_marshaler h (Value msg) = inl data → o = Responded status →
     status < 200 ∨ 300 ≤ status →
     HTTPSink_Write h o msg
     = Some (errorString ("unexpected status code: " +:+ pretty status))).
Proof.
  unfold HTTPSink_Write, HTTPSink_request. split_and!.
  - split.
    + destruct (http_marshaler h (Value msg)) as [data|e]; [|done].
      destruct o as [e|e|status]; try done.
      destruct (bool_decide (status < 200)) eqn:H1; [done|].
      destruct (bool_decide (300 ≤ status)) eqn:H2; [done|]. intros _.
      apply bool_decide_eq_false_1 in H1, H2. exists data, status.
      split_and!; try done; lia.
    + intros (data & status & -> & -> & H1 & H2).
      rewrite !bool_decide_eq_false_2 by lia. done.
  - intros msg' ->. done.
  - intros e ->. split; [done|]. by intros o'.
  - intros data status -> -> [H|H].
    + by rewrite (bool_decide_eq_true_2 (status < 200)) by done.
    + rewrite (bool_decide_eq_true_2 (300 ≤ status)) by lia.
      by rewrite orb_true_r.
Qed.




End HTTPSinkLemmas.

Section HTTPSinkRuns.
Context {T : Type}.
Local Abbreviation Msg := (Message T).
Local Abbreviation State := (RunState T).




End HTTPSinkRuns.

(** ** The theorems at the example runs *)

Lemma Run_without_sink_witness :
  Run_start (Map (λ n, n * 2) (New "no sink" (ChannelSource [1; 2] true))) None
  = RunFailed [] (errorString "sink is required").
Proof. apply Run_without_sink. reflexivity. Defined.

Lemma HTTPSource_Stream_nonpositive_witness :
  Source_Stream zero_interval_source = inr (make_chan (Message Z) 10, SInit) ∧
  step zero_interval_source [] okSink (SrcPoll PollFailed 0) zero_interval_start
  = Some (set_src_task SPanic zero_interval_start).
Proof.
  pose proof (HTTPSource_Stream_nonpositive (T := Z) "http://localhost/feed" 0
                (λ _, inl 0) [] okSink zero_interval_start PollFailed 0
                ltac:(lia)) as [H1 H2].
  split; [exact H1 | apply H2; reflexivity].
Defined.

(** the pipeline configured with buffer size 1: the setting is 1 and its
    two channels have capacity 100 *)
Lemma small_buffer_capacities :
  bufferCap small_buffer_pipeline = 1 ∧
  ∃ s0, Run_start small_buffer_pipeline None = RunStarted s0 ∧
        map cap (chans s0) = [100; 100]%nat.
Proof. split; [reflexivity|]. eexists. split; reflexivity. Qed.

Lemma Filter_then_Map_delivers_witness :
  ret test_final = Some None ∧ map Value (written test_final) = [4; 8].
Proof.
  destruct (Filter_then_Map_delivers "test" [1; 2; 3; 4; 5] (λ n, Z.even n)
              (λ n, n * 2) okSink None test_start test_schedule test_final)
    as (_ & H & _).
  - intros n m. reflexivity.
  - reflexivity.
  - reflexivity.
  - vm_compute. reflexivity.
  - reflexivity.
  - destruct (H None) as (_ & _ & Hv); [reflexivity|].
    split; [reflexivity | exact Hv].
Defined.

Lemma Map_replaces_value_only_witness :
  written map_final = [mkMessage "" 8 0 (Some ∅); mkMessage "" 10 0 (Some ∅)] ∧
  length (written map_final) = 2%nat.
Proof.
  destruct (Map_replaces_value_only "map" [7; 9] (λ n, n + 1) okSink None
              map_start map_schedule map_final) as (_ & _ & H & _).
  - intros n m. reflexivity.
  - reflexivity.
  - reflexivity.
  - vm_compute. reflexivity.
  - reflexivity.
  - exact (H None eq_refl).
Defined.


(** When the consumer has drained its input after the failed write and
    [done] is closed as well by the time the select of [Run] is
    evaluated, both cases are ready and either may be taken. *)
Example select_with_two_ready_cases :
  ∃ s, exec (source failing_pipeline) (operators failing_pipeline) failing_sink
            (failing_schedule ++ [SrcRecv; Consume; Wait]) failing_start
       = Some s ∧
       (∃ s1, step (source failing_pipeline) (operators failing_pipeline)
                   failing_sink DriverErr s = Some s1 ∧
              ret s1 = Some (Some (wrapError "sink write: " (errorString "refused")))) ∧
       (∃ s2, step (source failing_pipeline) (operators failing_pipeline)
                   failing_sink DriverDone s = Some s2 ∧
              ret s2 = Some None).
Proof.
  eexists. split; [vm_compute; reflexivity|].
  split; eexists; (split; [vm_compute; reflexivity|reflexivity]).
Qed.



Lemma metadata_never_nil_witness :
  all_messages (λ m : Message Z, Metadata m ≠ None) test_midway.
Proof.
  apply (metadata_never_nil test_pipeline okSink None test_start
           (take 9 test_schedule) test_midway).
  - reflexivity.
  - reflexivity.
  - reflexivity.
  - vm_compute. reflexivity.
Defined.

Lemma ChannelSource_envelopes_witness :
  all_messages
    (λ m : Message Z, Key m = "" ∧ Timestamp m = 0 ∧ Metadata m = Some ∅)
    test_midway.
Proof.
  destruct (ChannelSource_envelopes test_pipeline [1; 2; 3; 4; 5] true okSink
              None test_start (take 9 test_schedule) test_midway) as (H & _).
  - reflexivity.
  - reflexivity.
  - reflexivity.
  - vm_compute. reflexivity.
  - exact H.
Defined.

Lemma pipeline_delivers_witness :
  ∃ sched' s',
    exec (source three_pipeline) (operators three_pipeline) okSink sched'
         three_start = Some s' ∧
    ctx s' = None ∧ ret s' = Some None ∧ map Value (written s') = [6; 12].
Proof.
  destruct (pipeline_delivers three_pipeline [1; 2; 3] okSink None three_start
              [] three_start) as (_ & _ & _ & H).
  - reflexivity.
  - reflexivity.
  - reflexivity.
  - intros n m. reflexivity.
  - reflexivity.
  - reflexivity.
  - reflexivity.
  - reflexivity.
  - exact H.
Defined.

Lemma sink_given_in_order_witness :
  map Value (written cancelled_state) `prefix_of` [4; 8] ∧
  (length (written cancelled_state) ≤ 5)%nat.
Proof.
  destruct (sink_given_in_order test_pipeline [1; 2; 3; 4; 5] true okSink None
              test_start cancelled_schedule cancelled_state) as (_ & H1 & H2).
  - reflexivity.
  - reflexivity.
  - reflexivity.
  - vm_compute. reflexivity.
  - split; [exact H1 | exact H2].
Defined.

Lemma channel_closed_by_sender_witness :
  closed (errs test_sending) = false ∧
  ∃ c, chans test_sending !! 1%nat = Some c ∧ closed c = false.
Proof.
  destruct (channel_closed_by_sender test_pipeline okSink None test_start
              (take 6 test_schedule) test_sending) as (_ & H1 & H2).
  - reflexivity.
  - reflexivity.
  - reflexivity.
  - vm_compute. reflexivity.
  - split; [exact H1|].
    apply (H2 (OpSend 0%nat) test_sent 1%nat); [vm_compute|]; reflexivity.
Defined.

Lemma cancelled_run_shuts_down_witness :
  ∃ sched' s',
    exec (source test_pipeline) (operators test_pipeline) okSink sched'
         cancelled_state = Some s' ∧
    all_returned s'.
Proof.
  apply (cancelled_run_shuts_down test_pipeline okSink None test_start
           cancelled_schedule cancelled_state).
  - reflexivity.
  - reflexivity.
  - simpl. exact I.
  - reflexivity.
  - vm_compute. reflexivity.
  - vm_compute. eexists. reflexivity.
Defined.

Lemma Run_returns_one_of_witness :
  Run_outcome (source test_pipeline) okSink cancelled_returned
              (Some (errorString "context canceled")).
Proof.
  apply (Run_returns_one_of test_pipeline okSink None test_start
           (cancelled_schedule ++ [DriverCancel]) cancelled_returned).
  - reflexivity.
  - reflexivity.
  - reflexivity.
  - vm_compute. reflexivity.
  - reflexivity.
Defined.

Lemma sink_closed_last_witness :
  consumer test_before_done = CExit ∧
  calls test_final = calls test_before_done ++ [EvSinkClose; EvSourceClose] ∧
  map Value (written test_final) = [4; 8].
Proof.
  destruct (sink_closed_last test_pipeline okSink None test_start
              (take 28 test_schedule) test_before_done test_final [] test_final)
    as (H1 & H2 & _ & H4).
  - reflexivity.
  - reflexivity.
  - reflexivity.
  - vm_compute. reflexivity.
  - vm_compute. reflexivity.
  - reflexivity.
  - split; [exact H1|]. split; [exact H2|]. rewrite H4. reflexivity.
Defined.

Lemma buffers_bounded_witness :
  (length (buf (errs test_midway)) ≤ 10)%nat ∧
  (cap (make_chan (Message Z) 100) = 10%nat ∨
   cap (make_chan (Message Z) 100) = 100%nat).
Proof.
  destruct (buffers_bounded test_pipeline okSink None (make_chan (Message Z) 100)
              SWait test_start (take 9 test_schedule) test_midway)
    as (_ & _ & H3 & H4).
  - reflexivity.
  - reflexivity.
  - reflexivity.
  - reflexivity.
  - vm_compute. reflexivity.
  - split; [exact H3 | apply H4; reflexivity].
Defined.

Lemma Run_start_failures_witness :
  (sink zero_cron_pipeline = None ∧ [EvStream] = @nil (Event Z) ∧
   wrapError "start source: " (errorString "interval must be positive")
   = errorString "sink is required") ∨
  (∃ e, Source_Stream (source zero_cron_pipeline) = inl e ∧
        [EvStream] = [@EvStream Z] ∧
        wrapError "start source: " (errorString "interval must be positive")
        = wrapError "start source: " e ∧
        (shipped (source zero_cron_pipeline) = true →
         ∃ interval generator,
           source zero_cron_pipeline = CronSource interval generator ∧
           interval ≤ 0 ∧ e = errorString "interval must be positive")).
Proof.
  apply (Run_start_failures zero_cron_pipeline None [EvStream]
           (wrapError "start source: " (errorString "interval must be positive"))).
  reflexivity.
Defined.

Lemma HTTPSource_envelopes_witness :
  all_messages
    (λ m : Message Z,
       Key m = "http://localhost/feed" ∧
       Metadata m = Some (<["source" := "http"]>
                          (<["url" := "http://localhost/feed"]>
                           (<["status" := "200"]> ∅)))) poll_state.
Proof.
  destruct (HTTPSource_envelopes poll_pipeline "http://localhost/feed" 5000000000
              (λ _, inl 7) okSink None poll_start poll_schedule poll_state)
    as (H & _).
  - reflexivity.
  - reflexivity.
  - reflexivity.
  - vm_compute. reflexivity.
  - exact H.
Defined.

Lemma CronSource_envelopes_witness :
  0 < 1000000000 ∧
  all_messages
    (λ m : Message Z, (∃ now : Z, Key m = "cron-" +:+ pretty now) ∧
                      Metadata m = Some ∅) cron_state.
Proof.
  destruct (CronSource_envelopes cron_pipeline 1000000000 (λ n, Z.of_nat n)
              okSink None cron_start cron_schedule cron_state) as (H1 & H2 & _).
  - reflexivity.
  - reflexivity.
  - reflexivity.
  - vm_compute. reflexivity.
  - split; [exact H1 | exact H2].
Defined.

Lemma sink_given_processed_witness :
  Forall (λ m : Message Z, Z.even (Value m) = true) (written cron_state).
Proof.
  destruct (sink_given_processed (λ _, True) cron_pipeline okSink None cron_start
              cron_schedule cron_state) as (_ & H).
  - simpl. intros n now1 now2. exact I.
  - reflexivity.
  - reflexivity.
  - vm_compute. reflexivity.
  - apply (H [MapOperator (λ n, n * 2)] (λ n, Z.even n)). reflexivity.
Defined.

